(** * Actions: a fixed-size queue of delayed callbacks (Arduino library)

    A shallow embedding of [Actions.cpp] / [Actions.h] and the properties
    of its ring buffer, its due test and its dispatch loop.

    Conventions of the embedding.
    - [int] values are [Z]; the only [int] computation that can leave the
      range of the type is [size += 1] in the constructor, which is
      guarded explicitly.
    - [unsigned long] values are [Z] reduced modulo [2^32].
    - Pointers that may be [NULL] are [option]s.
    - The clock ([millis()], [micros()]) and the code behind the function
      pointers are not part of the library: they are supplied by an
      environment [Env].  The n-th clock read of a run returns the n-th
      value of the environment, so any amount of time may pass between two
      reads.  The body of a callback is the list of [runLater] calls that
      it makes on the scheduler that dispatched it.
    - Every method takes the state of the world and returns its C++ return
      value together with the new state, inside [result]; [Err] is a run
      that leaves defined behaviour (or the fuel of the model). *)

From Stdlib Require Import ZArith Lia List Bool.
From stdpp Require Import base list.
Import ListNotations.
Local Open Scope Z_scope.

(** ** Platform constants (Arduino Uno / Mega: 16-bit int, 32-bit unsigned long) *)

Definition INT_MAX : Z := 32767.
Definition ULONG_MODULUS : Z := 2 ^ 32.

(** Conversion to [unsigned long]. *)
Definition ulong (z : Z) : Z := z mod ULONG_MODULUS.

(** [a - b] on [unsigned long] operands. *)
Definition ulong_sub (a b : Z) : Z := ulong (a - b).

(** ** Outcomes *)

Inductive fault : Type :=
| SignedOverflow      (* int arithmetic left the range of int *)
| BadArrayNewLength   (* new T[n] with n < 0 *)
| NullDereference     (* access through a NULL pointer *)
| OutOfBounds         (* queue[i] with i outside the allocated slots *)
| FuelExhausted.      (* the model ran out of fuel *)

Inductive result (A : Type) : Type :=
| Ok (a : A)
| Err (e : fault).
Arguments Ok {A} a.
Arguments Err {A} e.

#[global] Instance result_ret : MRet result := fun A a => Ok a.
#[global] Instance result_bind : MBind result := fun A B f m =>
  match m with
  | Ok a => f a
  | Err e => Err e
  end.

(** ** Data model (Actions.h) *)

(** [class Callback]: a function pointer, or an instance and a method
    pointer; each may be NULL. Addresses are natural numbers. *)
Record Callback : Type := mkCallback {
  functionCallback : option nat;
  methodInstance : option nat;
  methodCallback : option nat
}.

(** [Callback(FunctionCallback)] *)
Definition Callback_function (f : option nat) : Callback :=
  mkCallback f None None.

(** [Callback(MethodInstance, MethodCallback)] *)
Definition Callback_method (inst meth : option nat) : Callback :=
  mkCallback None inst meth.

(** [Callback()] *)
Definition Callback_empty : Callback := mkCallback None None None.

(** [class Action] *)
Record Action : Type := mkAction {
  callback : Callback;
  useMicros : bool;
  created : Z;
  delay : Z
}.

(** [Action()]: only [callback] is initialised; the other fields hold
    whatever the storage held, here zero. *)
Definition Action_empty : Action := mkAction Callback_empty false 0 0.

(** [class Actions] *)
Record Actions : Type := mkActions {
  queue : list Action;
  queueSize : Z;
  head : Z;
  tail : Z;
  overflowCallback : option Callback   (* Callback*; None is NULL *)
}.

(** What a call through a [Callback] reaches. *)
Inductive Target : Type :=
| Function (f : nat)
| Method (inst meth : nat).

(** The arguments of one public [runLater] call. *)
Record Request : Type := mkRequest {
  req_callback : Callback;
  req_delay : Z;
  req_useMicros : bool
}.

(** The environment of the library. *)
Record Env : Type := mkEnv {
  millis_at : nat -> Z;              (* value of millis() at the n-th clock read *)
  micros_at : nat -> Z;              (* value of micros() at the n-th clock read *)
  body : Target -> list Request      (* runLater calls made by a callback *)
}.

(** The scheduler, the number of clock reads made so far and the
    callbacks invoked so far, oldest first. *)
Record World : Type := mkWorld {
  sched : Actions;
  reads : nat;
  trace : list Target
}.

Definition set_sched (w : World) (s : Actions) : World :=
  mkWorld s (reads w) (trace w).

Definition log_call (t : Target) (w : World) : World :=
  mkWorld (sched w) (reads w) (trace w ++ [t]).

(** ** The clock *)

Definition clock_value (E : Env) (micros : bool) (n : nat) : Z :=
  ulong ((if micros then micros_at E else millis_at E) n).

(** [useMicros ? micros() : millis()] *)
Definition clock_read (E : Env) (micros : bool) (w : World) : Z * World :=
  (clock_value E micros (reads w), mkWorld (sched w) (S (reads w)) (trace w)).

(** ** Array accesses *)

Definition array_get (q : list Action) (i : Z) : result Action :=
  if 0 <=? i then
    match q !! Z.to_nat i with
    | Some a => Ok a
    | None => Err OutOfBounds
    end
  else Err OutOfBounds.

Definition array_set (q : list Action) (i : Z) (a : Action) : result (list Action) :=
  if (0 <=? i) && (i <? Z.of_nat (length q)) then Ok (<[Z.to_nat i := a]> q)
  else Err OutOfBounds.

(** ** Methods (Actions.cpp) *)

(** [Actions::Actions(int size)]. The assignment [queueSize = 0] made
    for a negative [size] is overwritten by [queueSize = size] three lines
    later, so it has no effect. [size += 1] must stay in the range of
    [int], and [new Action[size]] needs a length that is not negative. *)
Definition Actions_ctor (size : Z) : result Actions :=
  if INT_MAX <? size + 1 then Err SignedOverflow            (* size += 1 *)
  else
    let size := size + 1 in
    if size <? 0 then Err BadArrayNewLength                 (* new Action[size] *)
    else
      Ok {| queue := replicate (Z.to_nat size) Action_empty;
            queueSize := size;
            head := 0;
            tail := 0;
            overflowCallback := None |}.

(** [QUEUE_IS_EMPTY] *)
Definition QUEUE_IS_EMPTY (s : Actions) : bool := tail s =? head s.

(** [Actions::getSize()] *)
Definition getSize (s : Actions) : Z :=
  if tail s <? head s then head s - tail s
  else if negb (QUEUE_IS_EMPTY s) then queueSize s - (tail s - head s)
  else 0.

(** [Actions::isFull()] *)
Definition isFull (s : Actions) : bool :=
  if queueSize s <=? 1 then true
  else if head s =? queueSize s - 1 then tail s =? 0
  else tail s =? head s + 1.

(** [Actions::nextSlot(int currentSlot)] *)
Definition nextSlot (s : Actions) (currentSlot : Z) : Z :=
  if currentSlot =? queueSize s - 1 then 0 else currentSlot + 1.

(** [Callback::call()], as far as the library decides it: which code is
    entered, if any. *)
Definition Callback_target (c : Callback) : option Target :=
  match functionCallback c with
  | Some f => Some (Function f)
  | None =>
      match methodInstance c, methodCallback c with
      | Some inst, Some meth => Some (Method inst meth)
      | _, _ => None
      end
  end.

(** [Action::Action(Callback, unsigned long, bool)] *)
Definition Action_ctor (E : Env) (cb : Callback) (d : Z) (micros : bool)
    (w : World) : Action * World :=
  let '(now, w') := clock_read E micros w in
  (mkAction cb micros now d, w').

(** [Actions::runLater(Action action)]; [call] is [Callback::call]. *)
Definition runLater_action (call : Callback -> World -> result World)
    (action : Action) (w : World) : result (bool * World) :=
  let s := sched w in
  if negb (isFull s) then
    q ← array_set (queue s) (head s) action;
    Ok (true, set_sched w (mkActions q (queueSize s) (nextSlot s (head s))
                                     (tail s) (overflowCallback s)))
  else
    match overflowCallback s with
    | Some cb => w' ← call cb w; Ok (false, w')
    | None => Ok (false, w)
    end.

(** The public [Actions::runLater] overloads: build the [Action], then
    queue it. The [delay] parameter is an [unsigned long]. *)
Definition runLater_request (E : Env) (call : Callback -> World -> result World)
    (r : Request) (w : World) : result (bool * World) :=
  let '(action, w') :=
    Action_ctor E (req_callback r) (ulong (req_delay r)) (req_useMicros r) w in
  runLater_action call action w'.

(** The statements of a callback body, in order; results are ignored. *)
Fixpoint run_body (E : Env) (call : Callback -> World -> result World)
    (rs : list Request) (w : World) : result World :=
  match rs with
  | [] => Ok w
  | r :: rs' =>
      '(_, w') ← runLater_request E call r w;
      run_body E call rs' w'
  end.

(** [Callback::call()]. A handler that schedules on a full queue re-enters
    itself; [fuel] bounds the depth of that recursion. *)
Fixpoint Callback_call (E : Env) (fuel : nat) (cb : Callback) (w : World)
    : result World :=
  match fuel with
  | O => Err FuelExhausted
  | S k =>
      match Callback_target cb with
      | Some t => run_body E (Callback_call E k) (body E t) (log_call t w)
      | None => Ok w
      end
  end.

Definition runLater (E : Env) (fuel : nat) (r : Request) (w : World)
    : result (bool * World) :=
  runLater_request E (Callback_call E fuel) r w.

(** [Actions::setOverflowCallback]: [*overflowCallback = Callback(...)]. *)
Definition setOverflowCallback (cb : Callback) (s : Actions) : result Actions :=
  match overflowCallback s with
  | Some _ => Ok (mkActions (queue s) (queueSize s) (head s) (tail s) (Some cb))
  | None => Err NullDereference
  end.

(** [Actions::remove(Action& action)]; the first argument is the value
    that [action] holds before the call. *)
Definition remove (action : Action) (s : Actions)
    : result (bool * Action * Actions) :=
  if negb (QUEUE_IS_EMPTY s) then
    a ← array_get (queue s) (tail s);
    Ok (true, a, mkActions (queue s) (queueSize s) (head s)
                           (nextSlot s (tail s)) (overflowCallback s))
  else Ok (false, action, s).

(** The due test of [Actions::loop()]:
    [now - action.created > action.delay]. *)
Definition is_due (now : Z) (action : Action) : bool :=
  delay action <? ulong_sub now (created action).

(** The [for] loop of [Actions::loop()], entered at its condition with
    loop counter [i] and local variable [action]. *)
Fixpoint loop_from (E : Env) (fuel iters : nat) (i : Z) (action : Action)
    (w : World) : result World :=
  match iters with
  | O => Err FuelExhausted
  | S n =>
      if i <? getSize (sched w) then
        '(_, action, s1) ← remove action (sched w);
        let '(now, w2) := clock_read E (useMicros action) (set_sched w s1) in
        if is_due now action then
          Callback_call E fuel (callback action) w2        (* break *)
        else
          '(_, w3) ← runLater_action (Callback_call E fuel) action w2;
          loop_from E fuel n (i + 1) action w3
      else Ok w
  end.

(** [void Actions::loop()] *)
Definition loop (E : Env) (fuel : nat) (w : World) : result (unit * World) :=
  w' ← loop_from E fuel fuel 0 Action_empty w;
  Ok (tt, w').

(** ** Runs of the public interface *)

Inductive Op : Type :=
| OpRunLater (r : Request)
| OpLoop.

Inductive Ret : Type :=
| RetBool (b : bool)
| RetVoid.

Definition step (E : Env) (fuel : nat) (o : Op) (w : World) : result (Ret * World) :=
  match o with
  | OpRunLater r => '(b, w') ← runLater E fuel r w; Ok (RetBool b, w')
  | OpLoop => '(_, w') ← loop E fuel w; Ok (RetVoid, w')
  end.

Fixpoint run (E : Env) (fuel : nat) (ops : list Op) (w : World)
    : result (list Ret * World) :=
  match ops with
  | [] => Ok ([], w)
  | o :: ops' =>
      '(r, w1) ← step E fuel o w;
      '(rs, w2) ← run E fuel ops' w1;
      Ok (r :: rs, w2)
  end.

(** A freshly constructed scheduler, no clock read and no call so far. *)
Definition World_init (size : Z) : result World :=
  s ← Actions_ctor size; Ok (mkWorld s 0 []).

(** ** Specification-level views of the state *)

(** The actions met by following [nextSlot] for [n] steps from slot [i]. *)
Fixpoint slots_from (s : Actions) (n : nat) (i : Z) : list Action :=
  match n with
  | O => []
  | S n' =>
      match queue s !! Z.to_nat i with
      | Some a => a :: slots_from s n' (nextSlot s i)
      | None => []
      end
  end.

(** The pending actions, oldest queue position first: what [getSize()]
    successive calls of [remove] return. *)
Definition pending (s : Actions) : list Action :=
  slots_from s (Z.to_nat (getSize s)) (tail s).

(** The number of actions the queue can hold. *)
Definition capacity (s : Actions) : nat := Z.to_nat (queueSize s - 1).

(** The state invariant: the array has [queueSize] slots, no overflow
    callback object exists, and the indices are slots of the array (or
    the array is empty and both indices are zero). *)
Definition wf (s : Actions) : Prop :=
  Z.of_nat (length (queue s)) = queueSize s /\
  overflowCallback s = None /\
  ((0 <= head s < queueSize s /\ 0 <= tail s < queueSize s) \/
   (queueSize s = 0 /\ head s = 0 /\ tail s = 0)).

(** The first pending action that is due, when the n-th clock read
    serves the first of [l], with the actions before and after it. *)
Fixpoint first_due (E : Env) (n : nat) (l : list Action)
    : option (list Action * Action * list Action) :=
  match l with
  | [] => None
  | a :: l' =>
      if is_due (clock_value E (useMicros a) n) a then Some ([], a, l')
      else
        match first_due E (S n) l' with
        | Some (pre, x, post) => Some (a :: pre, x, post)
        | None => None
        end
  end.

(** The action that a public [runLater] call builds at the n-th clock read. *)
Definition Action_of (E : Env) (n : nat) (r : Request) : Action :=
  mkAction (req_callback r) (req_useMicros r)
           (clock_value E (req_useMicros r) n) (ulong (req_delay r)).

(** The pending list after the [runLater] calls [rs], the first at clock
    read [n], on a queue of capacity [cap] without overflow callback. *)
Fixpoint enqueue_all (E : Env) (cap : nat) (rs : list Request) (n : nat)
    (p : list Action) : list Action :=
  match rs with
  | [] => p
  | r :: rs' =>
      enqueue_all E cap rs' (S n)
        (if (length p <? cap)%nat then p ++ [Action_of E n r] else p)
  end.

(** The trace entry of a call through [cb]. *)
Definition call_event (cb : Callback) : list Target :=
  match Callback_target cb with
  | Some t => [t]
  | None => []
  end.

Definition call_body (E : Env) (cb : Callback) : list Request :=
  match Callback_target cb with
  | Some t => body E t
  | None => []
  end.

(** Number of steps of [nextSlot] from slot [t] to slot [h]. *)
Definition dist (qs t h : Z) : Z :=
  if t <=? h then h - t else qs - (t - h).

(** ** The scheduler as a bounded list of pending actions

    What a client can observe of a world: the pending actions in queue
    order, the clock reads made and the calls made. The functions
    [spec_runLater] and [spec_loop] describe the public methods on that
    view; [run_refines] shows that the code implements them. *)

Record View : Type := mkView {
  v_pending : list Action;
  v_reads : nat;
  v_trace : list Target
}.

Definition view (w : World) : View :=
  mkView (pending (sched w)) (reads w) (trace w).

Definition spec_runLater (E : Env) (cap : nat) (r : Request) (v : View)
    : bool * View :=
  let ok := (length (v_pending v) <? cap)%nat in
  (ok, mkView (if ok then v_pending v ++ [Action_of E (v_reads v) r]
               else v_pending v)
              (S (v_reads v)) (v_trace v)).

Definition spec_loop (E : Env) (cap : nat) (v : View) : View :=
  match first_due E (v_reads v) (v_pending v) with
  | None =>
      mkView (v_pending v) (v_reads v + length (v_pending v)) (v_trace v)
  | Some (pre, x, post) =>
      mkView (enqueue_all E cap (call_body E (callback x))
                          (v_reads v + S (length pre)) (post ++ pre))
             (v_reads v + S (length pre) + length (call_body E (callback x)))
             (v_trace v ++ call_event (callback x))
  end.

Definition spec_step (E : Env) (cap : nat) (o : Op) (v : View) : Ret * View :=
  match o with
  | OpRunLater r => let '(b, v') := spec_runLater E cap r v in (RetBool b, v')
  | OpLoop => (RetVoid, spec_loop E cap v)
  end.

Fixpoint spec_run (E : Env) (cap : nat) (ops : list Op) (v : View)
    : list Ret * View :=
  match ops with
  | [] => ([], v)
  | o :: ops' =>
      let '(r, v1) := spec_step E cap o v in
      let '(rs, v2) := spec_run E cap ops' v1 in
      (r :: rs, v2)
  end.

(** [head] and [tail] index one of the [size + 1] allocated slots. *)
Definition in_bounds (size : Z) (s : Actions) : Prop :=
  0 <= head s < size + 1 /\ 0 <= tail s < size + 1 /\
  Z.of_nat (length (queue s)) = size + 1.

(** The result of a run as a client sees it. *)
Definition observe {A : Type} (r : result (A * World)) : result (A * View) :=
  match r with
  | Ok (a, w) => Ok (a, view w)
  | Err e => Err e
  end.

(** A sketch: construct a scheduler of the given size, then make the calls. *)
Definition run_from (E : Env) (fuel : nat) (size : Z) (ops : list Op)
    : result (list Ret * World) :=
  w0 ← World_init size; run E fuel ops w0.

(** ** Concrete environments and worlds used in the examples *)

(** [runLater(f, d)] for the function at address [f], in milliseconds. *)
Definition req (f : nat) (d : Z) : Request :=
  mkRequest (Callback_function (Some f)) d false.

(** The action that [req f d] leaves in the queue when the clock reads [t]. *)
Definition act (f : nat) (t d : Z) : Action :=
  mkAction (Callback_function (Some f)) false t d.

(** Callbacks that schedule nothing; the millisecond clock reads as listed,
    then stays at [last]. *)
Definition E_clock (ticks : list Z) (last : Z) : Env :=
  mkEnv (fun n => nth n ticks last) (fun n => 1000 * nth n ticks last)
        (fun _ => []).

(** One millisecond passes between any two clock reads. *)
Definition E_tick : Env :=
  mkEnv (fun n => Z.of_nat n) (fun n => 1000 * Z.of_nat n) (fun _ => []).

(** As [E_tick], and function 1 re-schedules itself 500 ms later (the
    blink pattern of the README). *)
Definition E_blink : Env :=
  mkEnv (fun n => Z.of_nat n) (fun n => 1000 * Z.of_nat n)
        (fun t => match t with
                  | Function 1%nat => [req 1 500]
                  | _ => []
                  end).

(** The clock of the ordering scenario: three registrations at 0, 1 and
    2 ms, a poll at 3 ms, a poll at 10 ms, a poll at 11 ms, then 12 ms. *)
Definition E_fifo : Env := E_clock [0; 1; 2; 3; 3; 10; 10; 11] 12.

(** A clock that passes its wrap-around: the true times are
    [2^32 - 3], [2^32 + 1] and [2^32 + 2] ms. *)
Definition E_wrap : Env := E_clock [2 ^ 32 - 3; 2 ^ 32 + 1] (2 ^ 32 + 2).

(** A queue of capacity 3 holding three actions that are all due. *)
Definition w_three_due : World :=
  mkWorld (mkActions [act 1 0 0; act 2 0 0; act 3 0 0; Action_empty] 4 3 0 None)
          3 [].

(** A queue of capacity 1 holding function 1, due. *)
Definition w_blink : World :=
  mkWorld (mkActions [act 1 0 0; Action_empty] 2 1 0 None) 1 [].

(** A queue of capacity 3 holding one action due in 1000 ms and one in 2000 ms. *)
Definition w_waiting : World :=
  mkWorld (mkActions [act 1 0 1000; act 2 1 2000; Action_empty; Action_empty] 4 2 0 None)
          2 [].

(** ** The remaining entry points and their callers *)

(** [const static int DEFAULT_QUEUE_SIZE = 10] *)
Definition DEFAULT_QUEUE_SIZE : Z := 10.

(** [Actions::runLater(FunctionCallback, unsigned long, bool)] *)
Definition runLater_function (E : Env) (fuel : nat) (f : option nat) (d : Z)
    (micros : bool) (w : World) : result (bool * World) :=
  let '(action, w') := Action_ctor E (Callback_function f) (ulong d) micros w in
  runLater_action (Callback_call E fuel) action w'.

(** [Actions::runLater(MethodInstance, MethodCallback, unsigned long, bool)] *)
Definition runLater_method (E : Env) (fuel : nat) (inst meth : option nat)
    (d : Z) (micros : bool) (w : World) : result (bool * World) :=
  let '(action, w') := Action_ctor E (Callback_method inst meth) (ulong d) micros w in
  runLater_action (Callback_call E fuel) action w'.

(** [Actions::setOverflowCallback(FunctionCallback)] *)
Definition setOverflowCallback_function (f : option nat) (s : Actions)
    : result Actions :=
  setOverflowCallback (Callback_function f) s.

(** [Actions::setOverflowCallback(MethodInstance, MethodCallback)] *)
Definition setOverflowCallback_method (inst meth : option nat) (s : Actions)
    : result Actions :=
  setOverflowCallback (Callback_method inst meth) s.

(** Queue the actions [l] one after the other with [runLater(Action)];
    the results, in order. *)
Fixpoint push_all (call : Callback -> World -> result World) (l : list Action)
    (w : World) : result (list bool * World) :=
  match l with
  | [] => Ok ([], w)
  | a :: l' =>
      '(b, w1) ← runLater_action call a w;
      '(bs, w2) ← push_all call l' w1;
      Ok (b :: bs, w2)
  end.

(** Call [remove] until it returns false, at most [n] times; the actions
    retrieved, in order. [x] is the initial content of the buffer. *)
Fixpoint drain (n : nat) (x : Action) (s : Actions)
    : result (list Action * Actions) :=
  match n with
  | O => Ok ([], s)
  | S n' =>
      '(b, a, s1) ← remove x s;
      if b : bool then
        '(l, s2) ← drain n' a s1;
        Ok (a :: l, s2)
      else Ok ([], s1)
  end.

(** *** The Blink sketch (README and examples/Blink)

    [turnLedOn] switches the LED on and schedules [turnLedOff] in
    [BLINK_DELAY] ms; [turnLedOff] does the converse. [setup()] calls
    [turnLedOn()] and the sketch's [loop()] polls the scheduler. Writing
    the pin is not part of the model: the trace of calls tells the state
    of the LED. *)

Definition turnLedOn : nat := 1.
Definition turnLedOff : nat := 2.
Definition BLINK_DELAY : Z := 500.

Definition Blink_body (t : Target) : list Request :=
  match t with
  | Function f =>
      if Nat.eqb f turnLedOn then [req turnLedOff BLINK_DELAY]
      else if Nat.eqb f turnLedOff then [req turnLedOn BLINK_DELAY]
      else []
  | Method _ _ => []
  end.

(** The sketch under given clocks. *)
Definition Blink_env (millis micros : nat -> Z) : Env :=
  mkEnv millis micros Blink_body.

(** [Actions led;] and [setup()] *)
Definition Blink_setup (E : Env) (fuel : nat) : result World :=
  w0 ← World_init DEFAULT_QUEUE_SIZE;
  Callback_call E fuel (Callback_function (Some turnLedOn)) w0.

(** [setup()] followed by [m] passes of the sketch's [loop()] *)
Definition Blink_sketch (E : Env) (fuel : nat) (m : nat)
    : result (list Ret * World) :=
  w ← Blink_setup E fuel; run E fuel (replicate m OpLoop) w.

(** The function that the [i]-th call of the sketch reaches: on, off, on, ... *)
Definition blink_call (i : nat) : nat :=
  if Nat.even i then turnLedOn else turnLedOff.

Definition blink_calls (n : nat) : list Target :=
  map (fun i => Function (blink_call i)) (seq 0 n).

(** *** Worlds with an overflow callback object

    No method of the class makes [overflowCallback] point to an object;
    these states show what [runLater(Action)] does when it does. *)

(** Capacity 1, full, with function 9 as overflow callback. *)
Definition w_handler : World :=
  mkWorld (mkActions [act 1 0 1000; Action_empty] 2 1 0
                     (Some (Callback_function (Some 9%nat)))) 1 [].

(** Function 9 schedules function 3. *)
Definition E_reenter : Env :=
  mkEnv (fun n => Z.of_nat n) (fun n => 1000 * Z.of_nat n)
        (fun t => match t with
                  | Function 9%nat => [req 3 0]
                  | _ => []
                  end).

(** A full queue of capacity 2 whose second action is due. *)
Definition w_full_due : World :=
  mkWorld (mkActions [act 1 0 1000; act 2 0 0; Action_empty] 3 2 0 None) 2 [].

(** ** Ring-buffer arithmetic *)

Ltac zbool :=
  repeat match goal with
  | |- context [?a <? ?b] => destruct (Z.ltb_spec a b)
  | |- context [?a <=? ?b] => destruct (Z.leb_spec a b)
  | |- context [?a =? ?b] => destruct (Z.eqb_spec a b)
  | H : context [?a <? ?b] |- _ => destruct (Z.ltb_spec a b)
  | H : context [?a <=? ?b] |- _ => destruct (Z.leb_spec a b)
  | H : context [?a =? ?b] |- _ => destruct (Z.eqb_spec a b)
  end.

Ltac conjs := repeat match goal with |- _ /\ _ => split end.

Ltac ring_arith :=
  unfold wf, isFull, getSize, nextSlot, QUEUE_IS_EMPTY, capacity in *;
  simpl in *; zbool; simpl in *; try discriminate; try lia.

(** The invariant of a concrete state. *)
Ltac wf_concrete := unfold wf; cbn; conjs; [reflexivity | reflexivity | lia].

Lemma isFull_small s : queueSize s <= 1 -> isFull s = true.
Proof. intros. ring_arith. Qed.

Lemma getSize_nonneg s : wf s -> 0 <= getSize s.
Proof. intros. ring_arith. Qed.

Lemma getSize_bound s : wf s -> (Z.to_nat (getSize s) <= capacity s)%nat.
Proof. intros. ring_arith. Qed.

Lemma isFull_getSize s :
  wf s -> (isFull s = true <-> Z.to_nat (getSize s) = capacity s).
Proof. intros. ring_arith; split; intros; try discriminate; try lia; auto. Qed.

Lemma empty_getSize s : wf s -> (QUEUE_IS_EMPTY s = true <-> getSize s = 0).
Proof. intros. ring_arith; split; intros; try discriminate; try lia; auto. Qed.

Lemma getSize_dist s : getSize s = dist (queueSize s) (tail s) (head s).
Proof. unfold dist. ring_arith. Qed.

Lemma dist_next s t h :
  0 <= t < queueSize s -> 0 <= h < queueSize s -> t <> h ->
  0 <= nextSlot s t < queueSize s /\
  dist (queueSize s) (nextSlot s t) h = dist (queueSize s) t h - 1.
Proof. intros. unfold dist. ring_arith. Qed.

Lemma slots_from_ext s s' n i :
  queue s' = queue s -> queueSize s' = queueSize s ->
  slots_from s' n i = slots_from s n i.
Proof.
  intros Hq Hs. revert i. induction n as [|n IH]; intros i; simpl; [reflexivity|].
  rewrite Hq. destruct (queue s !! Z.to_nat i); [|reflexivity].
  f_equal. unfold nextSlot. rewrite Hs. apply IH.
Qed.

Lemma lookup_slot s i :
  Z.of_nat (length (queue s)) = queueSize s -> 0 <= i < queueSize s ->
  exists a, queue s !! Z.to_nat i = Some a.
Proof.
  intros Hl Hi. destruct (queue s !! Z.to_nat i) as [a|] eqn:Hq; [eauto|].
  apply lookup_ge_None in Hq. lia.
Qed.

Lemma slots_from_length s n t :
  Z.of_nat (length (queue s)) = queueSize s -> 0 <= t < queueSize s ->
  length (slots_from s n t) = n.
Proof.
  intros Hl. revert t. induction n as [|n IH]; intros t Ht; simpl; [reflexivity|].
  destruct (lookup_slot s t Hl Ht) as [a ->]. simpl. f_equal. apply IH.
  unfold nextSlot. zbool; lia.
Qed.

Lemma slots_from_insert s s' a n t :
  queueSize s' = queueSize s ->
  queue s' = <[Z.to_nat (head s) := a]> (queue s) ->
  Z.of_nat (length (queue s)) = queueSize s ->
  0 <= head s < queueSize s -> 0 <= t < queueSize s ->
  dist (queueSize s) t (head s) = Z.of_nat n ->
  slots_from s' (S n) t = slots_from s n t ++ [a].
Proof.
  intros Hs Hq Hl Hh. revert t. induction n as [|n IH]; intros t Ht Hd.
  - assert (t = head s) as -> by (unfold dist in Hd; zbool; lia).
    simpl. rewrite Hq, list_lookup_insert_eq by lia. reflexivity.
  - assert (t <> head s) as Hne by (unfold dist in Hd; zbool; lia).
    destruct (dist_next s t (head s) Ht Hh Hne) as [Hr Hd'].
    change (slots_from s' (S (S n)) t) with
      (match queue s' !! Z.to_nat t with
       | Some x => x :: slots_from s' (S n) (nextSlot s' t)
       | None => []
       end).
    rewrite Hq, list_lookup_insert_ne by lia.
    destruct (lookup_slot s t Hl Ht) as [x Hx]. rewrite Hx.
    replace (nextSlot s' t) with (nextSlot s t) by (unfold nextSlot; now rewrite Hs).
    rewrite IH by lia. simpl. rewrite Hx. reflexivity.
Qed.

Lemma pending_length s : wf s -> length (pending s) = Z.to_nat (getSize s).
Proof.
  intros Hwf. unfold pending.
  destruct (Z.eq_dec (getSize s) 0) as [H0|H0]; [rewrite H0; reflexivity|].
  apply slots_from_length; ring_arith.
Qed.

(** ** [runLater(Action)] and [remove] on the pending list *)

Lemma runLater_action_push call a w :
  wf (sched w) -> isFull (sched w) = false ->
  exists w', runLater_action call a w = Ok (true, w') /\
    wf (sched w') /\ pending (sched w') = pending (sched w) ++ [a] /\
    queueSize (sched w') = queueSize (sched w) /\
    reads w' = reads w /\ trace w' = trace w.
Proof.
  intros Hwf Hfull. unfold runLater_action. rewrite Hfull. simpl.
  pose proof Hwf as (Hl & Hn & _).
  assert (0 <= head (sched w) < queueSize (sched w) /\
          0 <= tail (sched w) < queueSize (sched w)) as (Hh & Ht)
    by (clear - Hwf Hfull; ring_arith).
  unfold array_set.
  replace ((0 <=? head (sched w)) && (head (sched w) <? Z.of_nat (length (queue (sched w)))))
    with true by (symmetry; apply andb_true_iff; split; zbool; lia).
  simpl. eexists. split; [reflexivity|].
  repeat split; simpl.
  - rewrite length_insert. exact Hl.
  - exact Hn.
  - left. clear - Hh Ht. unfold nextSlot. zbool; lia.
  - unfold pending.
    set (s' := mkActions _ _ _ _ _).
    assert (getSize s' = getSize (sched w) + 1) as Hg.
    { clear - Hh Ht Hfull. subst s'. ring_arith. }
    rewrite Hg.
    replace (Z.to_nat (getSize (sched w) + 1)) with (S (Z.to_nat (getSize (sched w))))
      by (clear - Hwf; pose proof (getSize_nonneg _ Hwf); lia).
    apply slots_from_insert; try reflexivity; try assumption.
    rewrite <- getSize_dist. pose proof (getSize_nonneg _ Hwf). lia.
Qed.

Lemma runLater_action_full call a w :
  wf (sched w) -> isFull (sched w) = true ->
  runLater_action call a w = Ok (false, w).
Proof.
  intros (_ & Hn & _) Hfull. unfold runLater_action. rewrite Hfull, Hn. reflexivity.
Qed.

Lemma remove_pop x s :
  wf s -> QUEUE_IS_EMPTY s = false ->
  exists a s', remove x s = Ok (true, a, s') /\
    wf s' /\ pending s = a :: pending s' /\
    queueSize s' = queueSize s /\ isFull s' = false.
Proof.
  intros Hwf Hne. unfold remove. rewrite Hne. simpl.
  pose proof Hwf as (Hl & Hn & _).
  assert (0 <= head s < queueSize s /\ 0 <= tail s < queueSize s) as (Hh & Ht)
    by (clear - Hwf Hne; ring_arith).
  unfold array_get. replace (0 <=? tail s) with true by (zbool; lia).
  destruct (lookup_slot s (tail s) Hl Ht) as [a Ha]. rewrite Ha. simpl.
  eexists _, _. split; [reflexivity|].
  set (s' := mkActions _ _ _ _ _).
  assert (getSize s = getSize s' + 1 /\ 0 <= getSize s') as [Hg Hg0].
  { clear - Hh Ht Hne. subst s'. ring_arith. }
  repeat split; try assumption.
  - left. clear - Hh Ht. subst s'. simpl. unfold nextSlot. zbool; lia.
  - unfold pending. rewrite Hg.
    replace (Z.to_nat (getSize s' + 1)) with (S (Z.to_nat (getSize s'))) by lia.
    simpl. rewrite Ha. f_equal. symmetry. apply slots_from_ext; reflexivity.
  - clear - Hh Ht Hne. subst s'. ring_arith.
Qed.

Lemma isFull_pending s :
  wf s -> isFull s = negb (length (pending s) <? capacity s)%nat.
Proof.
  intros Hwf. rewrite pending_length by assumption.
  pose proof (getSize_bound s Hwf) as Hb.
  pose proof (isFull_getSize s Hwf) as [H1 H2].
  destruct (Nat.ltb_spec (Z.to_nat (getSize s)) (capacity s)); simpl.
  - destruct (isFull s); [|reflexivity]. specialize (H1 eq_refl). lia.
  - apply H2. lia.
Qed.

(** ** Calls through a callback when no overflow callback exists *)

Lemma run_body_spec E call rs : forall w,
  wf (sched w) ->
  exists w', run_body E call rs w = Ok w' /\
    wf (sched w') /\
    pending (sched w') =
      enqueue_all E (capacity (sched w)) rs (reads w) (pending (sched w)) /\
    queueSize (sched w') = queueSize (sched w) /\
    reads w' = (reads w + length rs)%nat /\ trace w' = trace w.
Proof.
  induction rs as [|r rs IH]; intros w Hwf.
  - exists w. simpl. conjs; auto.
  - cbn [run_body enqueue_all length]. unfold runLater_request, Action_ctor, clock_read.
    set (w1 := mkWorld (sched w) (S (reads w)) (trace w)).
    fold (Action_of E (reads w) r).
    assert (wf (sched w1)) as Hwf1 by exact Hwf.
    assert ((length (pending (sched w)) <? capacity (sched w))%nat
            = negb (isFull (sched w))) as ->
      by (rewrite isFull_pending by assumption; now rewrite negb_involutive).
    destruct (isFull (sched w)) eqn:Hfull; cbn [negb].
    + rewrite (runLater_action_full call _ w1 Hwf1 Hfull). simpl.
      destruct (IH w1 Hwf1) as (w' & Hrun & Hwf' & Hp & Hq & Hr & Ht).
      exists w'. conjs; auto. simpl in Hr. lia.
    + destruct (runLater_action_push call (Action_of E (reads w) r) w1 Hwf1 Hfull)
        as (w2 & Hrun2 & Hwf2 & Hp2 & Hq2 & Hr2 & Ht2).
      rewrite Hrun2. simpl.
      destruct (IH w2 Hwf2) as (w' & Hrun & Hwf' & Hp & Hq & Hr & Ht).
      subst w1. simpl in *.
      exists w'. conjs; auto.
      * rewrite Hp, Hp2, Hr2. unfold capacity. rewrite Hq2. reflexivity.
      * congruence.
      * rewrite Hr, Hr2. simpl. lia.
      * congruence.
Qed.

Lemma Callback_call_spec E fuel cb w :
  wf (sched w) ->
  exists w', Callback_call E (S fuel) cb w = Ok w' /\
    wf (sched w') /\
    pending (sched w') =
      enqueue_all E (capacity (sched w)) (call_body E cb) (reads w)
                  (pending (sched w)) /\
    queueSize (sched w') = queueSize (sched w) /\
    reads w' = (reads w + length (call_body E cb))%nat /\
    trace w' = trace w ++ call_event cb.
Proof.
  intros Hwf. unfold call_body, call_event. simpl.
  destruct (Callback_target cb) as [t|].
  - destruct (run_body_spec E (Callback_call E fuel) (body E t) (log_call t w) Hwf)
      as (w' & Hrun & Hwf' & Hp & Hq & Hr & Ht).
    exists w'. conjs; auto.
  - exists w. simpl. conjs; auto. now rewrite app_nil_r.
Qed.

(** ** The scan of [Actions::loop()] *)

Lemma loop_from_spec E fuel : forall todo done iters i action w,
  wf (sched w) ->
  pending (sched w) = todo ++ done ->
  i = Z.of_nat (length done) ->
  (length todo < iters)%nat ->
  (first_due E (reads w) todo = None ->
   exists w', loop_from E fuel iters i action w = Ok w' /\
     wf (sched w') /\ pending (sched w') = done ++ todo /\
     queueSize (sched w') = queueSize (sched w) /\
     reads w' = (reads w + length todo)%nat /\ trace w' = trace w) /\
  (forall pre x post, first_due E (reads w) todo = Some (pre, x, post) ->
   exists w1, loop_from E fuel iters i action w =
                Callback_call E fuel (callback x) w1 /\
     wf (sched w1) /\ pending (sched w1) = post ++ done ++ pre /\
     queueSize (sched w1) = queueSize (sched w) /\
     reads w1 = (reads w + S (length pre))%nat /\ trace w1 = trace w).
Proof.
  induction todo as [|a todo IH]; intros done iters i action w Hwf Hp Hi Hit.
  - split; [|discriminate]. intros _.
    destruct iters as [|n]; [simpl in Hit; lia|].
    exists w. cbn [loop_from].
    assert (getSize (sched w) = i) as Hg.
    { pose proof (pending_length _ Hwf) as Hlen. rewrite Hp in Hlen. simpl in Hlen.
      pose proof (getSize_nonneg _ Hwf). lia. }
    rewrite Hg, Z.ltb_irrefl. rewrite app_nil_r. simpl in Hp.
    conjs; auto.
  - destruct iters as [|n]; [simpl in Hit; lia|]. simpl in Hit.
    assert (getSize (sched w) = i + 1 + Z.of_nat (length todo)) as Hg.
    { pose proof (pending_length _ Hwf) as Hlen. rewrite Hp in Hlen.
      rewrite length_app in Hlen. simpl in Hlen.
      pose proof (getSize_nonneg _ Hwf). lia. }
    assert (QUEUE_IS_EMPTY (sched w) = false) as Hne.
    { destruct (QUEUE_IS_EMPTY (sched w)) eqn:He; [|reflexivity].
      apply (empty_getSize _ Hwf) in He. lia. }
    destruct (remove_pop action (sched w) Hwf Hne)
      as (a0 & s1 & Hrem & Hwf1 & Hp1 & Hq1 & Hfull1).
    rewrite Hp in Hp1. simpl in Hp1. injection Hp1 as <- Hp1.
    cbn [loop_from first_due].
    replace (i <? getSize (sched w)) with true by (symmetry; apply Z.ltb_lt; lia).
    rewrite Hrem. simpl. unfold clock_read. simpl.
    destruct (is_due (clock_value E (useMicros a) (reads w)) a) eqn:Hdue.
    + split; [discriminate|]. intros pre x post [= <- <- <-].
      eexists. split; [reflexivity|]. simpl.
      conjs; auto; try apply Hwf1. now rewrite app_nil_r. lia.
    + set (w2 := mkWorld s1 (S (reads w)) (trace w)).
      destruct (runLater_action_push (Callback_call E fuel) a w2 Hwf1 Hfull1)
        as (w3 & Hrun3 & Hwf3 & Hp3 & Hq3 & Hr3 & Ht3).
      rewrite Hrun3. simpl.
      subst w2. simpl in Hp3, Hq3, Hr3, Ht3.
      assert (pending (sched w3) = todo ++ (done ++ [a])) as Hp3'.
      { rewrite Hp3. simpl. rewrite <- Hp1. now rewrite app_assoc. }
      assert (i + 1 = Z.of_nat (length (done ++ [a]))) as Hi'.
      { rewrite length_app. simpl. lia. }
      assert (length todo < n)%nat as Hit' by lia.
      destruct (IH (done ++ [a]) n (i + 1) a w3 Hwf3 Hp3' Hi' Hit') as [IHn IHs].
      rewrite Hr3 in IHn, IHs. simpl in IHn, IHs.
      destruct (first_due E (S (reads w)) todo) as [[[pre0 x0] post0]|].
      * split; [discriminate|]. intros pre x post [= <- <- <-].
        destruct (IHs pre0 x0 post0 eq_refl) as (w1 & Hl & Hw & Hpp & Hqq & Hrr & Htt).
        exists w1. conjs; auto; try apply Hw.
        -- rewrite Hpp. now rewrite <- !app_assoc.
        -- congruence.
        -- rewrite Hrr. simpl. lia.
        -- congruence.
      * split; [|discriminate]. intros _.
        destruct (IHn eq_refl) as (w' & Hl & Hw & Hpp & Hqq & Hrr & Htt).
        exists w'. conjs; auto; try apply Hw.
        -- rewrite Hpp. now rewrite <- app_assoc.
        -- congruence.
        -- rewrite Hrr. simpl. lia.
        -- congruence.
Qed.

Lemma first_due_Some E l : forall n pre x post,
  first_due E n l = Some (pre, x, post) ->
  l = pre ++ x :: post /\
  is_due (clock_value E (useMicros x) (n + length pre)) x = true /\
  first_due E n pre = None.
Proof.
  induction l as [|a l IH]; intros n pre x post H; [discriminate|].
  simpl in H.
  destruct (is_due (clock_value E (useMicros a) n) a) eqn:Hd.
  - injection H as <- <- <-. simpl. rewrite Nat.add_0_r. auto.
  - destruct (first_due E (S n) l) as [[[pre0 x0] post0]|] eqn:Hf; [|discriminate].
    injection H as <- <- <-.
    destruct (IH _ _ _ _ Hf) as (-> & Hx & Hpre).
    simpl. rewrite Hd, Hpre. replace (n + S (length pre0))%nat with (S n + length pre0)%nat by lia.
    auto.
Qed.

Lemma first_due_None E l : forall n,
  first_due E n l = None <->
  (forall k a, l !! k = Some a -> is_due (clock_value E (useMicros a) (n + k)) a = false).
Proof.
  induction l as [|a l IH]; intros n; simpl.
  - split; [intros _ k a' H; discriminate|reflexivity].
  - destruct (is_due (clock_value E (useMicros a) n) a) eqn:Hd.
    + split; [discriminate|]. intros H. specialize (H O a eq_refl).
      rewrite Nat.add_0_r in H. congruence.
    + specialize (IH (S n)).
      destruct (first_due E (S n) l) as [[[pre0 x0] post0]|].
      * split; [discriminate|]. intros H. exfalso.
        assert (Some (pre0, x0, post0) = None) as Hn; [|discriminate].
        apply IH. intros k a' Hk. specialize (H (S k) a' Hk).
        now replace (S n + k)%nat with (n + S k)%nat by lia.
      * split; [|reflexivity]. intros _ [|k] a' Hk.
        -- injection Hk as <-. now rewrite Nat.add_0_r.
        -- replace (n + S k)%nat with (S n + k)%nat by lia.
           apply IH; [reflexivity|exact Hk].
Qed.

(** ** The public methods on well-formed states *)

Lemma runLater_spec E fuel r w :
  wf (sched w) ->
  let ok := (length (pending (sched w)) <? capacity (sched w))%nat in
  exists w', runLater E fuel r w = Ok (ok, w') /\
    wf (sched w') /\
    pending (sched w') =
      (if ok then pending (sched w) ++ [Action_of E (reads w) r]
       else pending (sched w)) /\
    queueSize (sched w') = queueSize (sched w) /\
    reads w' = S (reads w) /\ trace w' = trace w.
Proof.
  intros Hwf ok. unfold runLater, runLater_request, Action_ctor, clock_read.
  fold (Action_of E (reads w) r).
  set (w1 := mkWorld (sched w) (S (reads w)) (trace w)).
  assert (wf (sched w1)) as Hwf1 by exact Hwf.
  assert (ok = negb (isFull (sched w))) as Hok
    by (subst ok; rewrite isFull_pending by assumption; now rewrite negb_involutive).
  rewrite Hok. destruct (isFull (sched w)) eqn:Hfull; cbn [negb].
  - rewrite (runLater_action_full _ _ w1 Hwf1 Hfull). exists w1. conjs; auto.
  - destruct (runLater_action_push (Callback_call E fuel) (Action_of E (reads w) r)
                w1 Hwf1 Hfull) as (w2 & Hrun & Hwf2 & Hp & Hq & Hr & Ht).
    exists w2. conjs; auto.
Qed.

Lemma loop_idle E fuel w :
  wf (sched w) -> (length (pending (sched w)) < fuel)%nat ->
  first_due E (reads w) (pending (sched w)) = None ->
  exists w', loop E fuel w = Ok (tt, w') /\
    wf (sched w') /\ pending (sched w') = pending (sched w) /\
    queueSize (sched w') = queueSize (sched w) /\
    reads w' = (reads w + length (pending (sched w)))%nat /\
    trace w' = trace w.
Proof.
  intros Hwf Hfuel Hnone.
  destruct (loop_from_spec E fuel (pending (sched w)) [] fuel 0 Action_empty w Hwf)
    as [Hidle _]; [now rewrite app_nil_r|reflexivity|exact Hfuel|].
  destruct (Hidle Hnone) as (w' & Hrun & Hwf' & Hp & Hq & Hr & Ht).
  exists w'. unfold loop. rewrite Hrun. conjs; auto.
Qed.

Lemma loop_dispatch E fuel w pre x post :
  wf (sched w) -> (length (pending (sched w)) < fuel)%nat ->
  first_due E (reads w) (pending (sched w)) = Some (pre, x, post) ->
  exists w', loop E fuel w = Ok (tt, w') /\
    wf (sched w') /\
    pending (sched w') =
      enqueue_all E (capacity (sched w)) (call_body E (callback x))
                  (reads w + S (length pre)) (post ++ pre) /\
    queueSize (sched w') = queueSize (sched w) /\
    reads w' = (reads w + S (length pre) + length (call_body E (callback x)))%nat /\
    trace w' = trace w ++ call_event (callback x).
Proof.
  intros Hwf Hfuel Hsome.
  destruct (loop_from_spec E fuel (pending (sched w)) [] fuel 0 Action_empty w Hwf)
    as [_ Hdisp]; [now rewrite app_nil_r|reflexivity|exact Hfuel|].
  destruct (Hdisp _ _ _ Hsome) as (w1 & Hrun & Hwf1 & Hp1 & Hq1 & Hr1 & Ht1).
  destruct fuel as [|fuel]; [lia|].
  destruct (Callback_call_spec E fuel (callback x) w1 Hwf1)
    as (w' & Hcall & Hwf' & Hp & Hq & Hr & Ht).
  exists w'. unfold loop. rewrite Hrun, Hcall. simpl in Hp1.
  conjs; auto; try congruence.
  rewrite Hp, Hp1, Hr1. unfold capacity. now rewrite Hq1.
Qed.

(** ** The code implements the view-level description *)

Lemma pending_le_capacity s : wf s -> (length (pending s) <= capacity s)%nat.
Proof. intros H. rewrite pending_length by assumption. now apply getSize_bound. Qed.

Lemma step_refines E fuel o w :
  wf (sched w) -> (o = OpLoop -> (capacity (sched w) < fuel)%nat) ->
  exists w',
    step E fuel o w = Ok (fst (spec_step E (capacity (sched w)) o (view w)), w') /\
    wf (sched w') /\ queueSize (sched w') = queueSize (sched w) /\
    view w' = snd (spec_step E (capacity (sched w)) o (view w)).
Proof.
  intros Hwf Hfuel. pose proof (pending_le_capacity _ Hwf) as Hle.
  destruct o as [r|]; cbn [step spec_step].
  - destruct (runLater_spec E fuel r w Hwf) as (w' & Hrun & Hwf' & Hp & Hq & Hr & Ht).
    exists w'. rewrite Hrun. unfold spec_runLater, view. cbn.
    conjs; auto. now rewrite Hp, Hr, Ht.
  - specialize (Hfuel eq_refl). unfold spec_loop, view. cbn.
    destruct (first_due E (reads w) (pending (sched w))) as [[[pre x] post]|] eqn:Hf.
    + destruct (loop_dispatch E fuel w pre x post Hwf) as (w' & Hrun & Hwf' & Hp & Hq & Hr & Ht);
        [lia|exact Hf|].
      exists w'. rewrite Hrun. cbn. conjs; auto. now rewrite Hp, Hr, Ht.
    + destruct (loop_idle E fuel w Hwf) as (w' & Hrun & Hwf' & Hp & Hq & Hr & Ht);
        [lia|exact Hf|].
      exists w'. rewrite Hrun. cbn. conjs; auto. now rewrite Hp, Hr, Ht.
Qed.

Lemma run_refines E fuel ops : forall w,
  wf (sched w) -> (In OpLoop ops -> (capacity (sched w) < fuel)%nat) ->
  exists w',
    run E fuel ops w = Ok (fst (spec_run E (capacity (sched w)) ops (view w)), w') /\
    wf (sched w') /\ queueSize (sched w') = queueSize (sched w) /\
    view w' = snd (spec_run E (capacity (sched w)) ops (view w)).
Proof.
  induction ops as [|o ops IH]; intros w Hwf Hfuel.
  - exists w. cbn. auto.
  - destruct (step_refines E fuel o w Hwf) as (w1 & Hstep & Hwf1 & Hq1 & Hv1).
    { intros ->. apply Hfuel. now left. }
    assert (capacity (sched w1) = capacity (sched w)) as Hc
      by (unfold capacity; now rewrite Hq1).
    destruct (IH w1 Hwf1) as (w2 & Hrun & Hwf2 & Hq2 & Hv2).
    { intros Hin. rewrite Hc. apply Hfuel. now right. }
    exists w2. cbn [run spec_run]. rewrite Hstep. cbn. rewrite Hrun. cbn.
    rewrite Hc, Hv1 in *.
    destruct (spec_step E (capacity (sched w)) o (view w)) as [r v1]. cbn in *.
    destruct (spec_run E (capacity (sched w)) ops v1) as [rs v2]. cbn in *.
    conjs; auto. congruence.
Qed.

(** ** The constructor *)

Lemma Actions_ctor_Ok size s :
  Actions_ctor size = Ok s ->
  -1 <= size < INT_MAX /\ wf s /\ queueSize s = size + 1 /\
  head s = 0 /\ tail s = 0 /\ pending s = [].
Proof.
  unfold Actions_ctor. intros H.
  destruct (Z.ltb_spec INT_MAX (size + 1)); [discriminate|].
  destruct (Z.ltb_spec (size + 1) 0); [discriminate|].
  injection H as <-. unfold wf, pending, getSize, QUEUE_IS_EMPTY. cbn.
  rewrite length_replicate. conjs; auto; lia.
Qed.

Lemma Actions_ctor_total size :
  -1 <= size < INT_MAX -> exists s, Actions_ctor size = Ok s.
Proof.
  intros H. unfold Actions_ctor.
  destruct (Z.ltb_spec INT_MAX (size + 1)); [lia|].
  destruct (Z.ltb_spec (size + 1) 0); [lia|]. eauto.
Qed.

Lemma World_init_Ok size w :
  World_init size = Ok w ->
  -1 <= size < INT_MAX /\ wf (sched w) /\ queueSize (sched w) = size + 1 /\
  head (sched w) = 0 /\ tail (sched w) = 0 /\
  view w = mkView [] 0 [].
Proof.
  unfold World_init. destruct (Actions_ctor size) as [s|e] eqn:Hs; [|discriminate].
  cbn. intros [= <-]. apply Actions_ctor_Ok in Hs as (? & ? & ? & ? & ? & Hp).
  unfold view. cbn. rewrite Hp. conjs; auto; lia.
Qed.

(** ** Properties of the view-level description *)

Lemma enqueue_all_app E cap rs : forall n p,
  exists added, enqueue_all E cap rs n p = p ++ added.
Proof.
  induction rs as [|r rs IH]; intros n p; cbn [enqueue_all].
  - exists []. now rewrite app_nil_r.
  - destruct (length p <? cap)%nat.
    + destruct (IH (S n) (p ++ [Action_of E n r])) as [added ->].
      exists (Action_of E n r :: added). now rewrite <- app_assoc.
    + apply IH.
Qed.

Lemma enqueue_all_bound E cap rs : forall n p,
  (length p <= cap)%nat -> (length (enqueue_all E cap rs n p) <= cap)%nat.
Proof.
  induction rs as [|r rs IH]; intros n p Hp; cbn [enqueue_all]; [exact Hp|].
  destruct (Nat.ltb_spec (length p) cap); apply IH; [|exact Hp].
  rewrite length_app. simpl. lia.
Qed.

Lemma call_event_length cb : (length (call_event cb) <= 1)%nat.
Proof. unfold call_event. destruct (Callback_target cb); simpl; lia. Qed.

Lemma spec_loop_calls E cap v :
  exists calls,
    v_trace (spec_loop E cap v) = v_trace v ++ calls /\
    (length calls <= 1)%nat /\
    (length (v_pending v) <= S (length (v_pending (spec_loop E cap v))))%nat.
Proof.
  unfold spec_loop.
  destruct (first_due E (v_reads v) (v_pending v)) as [[[pre x] post]|] eqn:Hf; cbn.
  - exists (call_event (callback x)). conjs; auto using call_event_length.
    apply first_due_Some in Hf as (-> & _ & _).
    destruct (enqueue_all_app E cap (call_body E (callback x))
                (v_reads v + S (length pre)) (post ++ pre)) as [added ->].
    rewrite !length_app. simpl. lia.
  - exists []. rewrite app_nil_r. conjs; auto.
Qed.

Lemma spec_run_polls E cap m : forall v,
  exists calls,
    v_trace (snd (spec_run E cap (replicate m OpLoop) v)) = v_trace v ++ calls /\
    (length calls <= m)%nat /\
    (length (v_pending v) <=
       m + length (v_pending (snd (spec_run E cap (replicate m OpLoop) v))))%nat.
Proof.
  induction m as [|m IH]; intros v; cbn [replicate spec_run spec_step].
  - exists []. cbn. rewrite app_nil_r. conjs; auto.
  - destruct (spec_loop_calls E cap v) as (c1 & Ht1 & Hl1 & Hp1).
    destruct (IH (spec_loop E cap v)) as (c2 & Ht2 & Hl2 & Hp2).
    destruct (spec_run E cap (replicate m OpLoop) (spec_loop E cap v)) as [rs v2].
    cbn in *. exists (c1 ++ c2). rewrite Ht2, Ht1, <- app_assoc, length_app.
    conjs; auto; lia.
Qed.

(** ** Reachable states

    Every sequence of public calls on a constructed scheduler runs to its
    end and leaves a well-formed state; the theorems below are stated for
    well-formed states. *)
Lemma reachable_wf E fuel size ops w0 :
  World_init size = Ok w0 -> (In OpLoop ops -> (Z.to_nat size < fuel)%nat) ->
  exists rs w, run E fuel ops w0 = Ok (rs, w) /\ wf (sched w).
Proof.
  intros Hinit Hfuel.
  apply World_init_Ok in Hinit as (_ & Hwf & Hq & _).
  destruct (run_refines E fuel ops w0 Hwf) as (w & Hrun & Hwfw & _).
  { intros Hin. unfold capacity. rewrite Hq.
    replace (size + 1 - 1) with size by lia. now apply Hfuel. }
  eauto.
Qed.

(** ** C1: one call per poll *)

(** C1. For every well-formed scheduler state, one call of [Actions::loop]
    invokes at most one stored callable: the trace grows by at most one
    call. When an action is found due, the call is that action's callback,
    the clock was read only for the actions before it and for itself (and
    by the [runLater] calls of the callback), and every action behind it is
    still pending. Hence [m] polls make at most [m] calls and remove at
    most [m] actions: draining [n] due actions takes [n] polls. *)
Theorem loop_at_most_one_call E fuel w :
  wf (sched w) -> (capacity (sched w) < fuel)%nat ->
  (exists w' calls,
     loop E fuel w = Ok (tt, w') /\
     trace w' = trace w ++ calls /\ (length calls <= 1)%nat /\
     (forall pre x post,
        first_due E (reads w) (pending (sched w)) = Some (pre, x, post) ->
        calls = call_event (callback x) /\
        reads w' = (reads w + S (length pre)
                    + length (call_body E (callback x)))%nat /\
        exists added, pending (sched w') = post ++ pre ++ added)) /\
  (forall m, exists rs w' calls,
     run E fuel (replicate m OpLoop) w = Ok (rs, w') /\
     trace w' = trace w ++ calls /\ (length calls <= m)%nat /\
     (length (pending (sched w)) <= m + length (pending (sched w')))%nat).
Proof.
  intros Hwf Hfuel. pose proof (pending_le_capacity _ Hwf) as Hle. split.
  - destruct (first_due E (reads w) (pending (sched w))) as [[[pre x] post]|] eqn:Hf.
    + destruct (loop_dispatch E fuel w pre x post Hwf) as (w' & Hrun & _ & Hp & _ & Hr & Ht);
        [lia|exact Hf|].
      exists w', (call_event (callback x)).
      conjs; auto using call_event_length.
      intros pre' x' post' [= <- <- <-]. conjs; auto.
      destruct (enqueue_all_app E (capacity (sched w)) (call_body E (callback x))
                  (reads w + S (length pre)) (post ++ pre)) as [added Ha].
      exists added. now rewrite Hp, Ha, <- app_assoc.
    + destruct (loop_idle E fuel w Hwf) as (w' & Hrun & _ & _ & _ & _ & Ht);
        [lia|exact Hf|].
      exists w', []. rewrite app_nil_r. conjs; auto. discriminate.
  - intros m.
    destruct (run_refines E fuel (replicate m OpLoop) w Hwf (fun _ => Hfuel))
      as (w' & Hrun & _ & _ & Hv).
    destruct (spec_run_polls E (capacity (sched w)) m (view w)) as (calls & Ht & Hl & Hp).
    rewrite <- Hv in Ht, Hp. cbn in Ht, Hp.
    eexists _, w', calls. conjs; eauto.
Qed.


Lemma loop_at_most_one_call_witness :
  wf (sched w_three_due) /\
  exists w' calls,
    loop E_tick 4 w_three_due = Ok (tt, w') /\
    trace w' = trace w_three_due ++ calls /\ (length calls <= 1)%nat.
Proof.
  assert (wf (sched w_three_due)) as Hwf by wf_concrete.
  split; [exact Hwf|].
  assert (capacity (sched w_three_due) < 4)%nat as Hfuel by (vm_compute; lia).
  destruct (loop_at_most_one_call E_tick 4 w_three_due Hwf Hfuel) as [Hone _].
  destruct Hone as (w' & calls & Hrun & Ht & Hl & _).
  exists w', calls. conjs; assumption.
Defined.

(** Three actions are due; each poll calls exactly one of them, oldest
    first, and the third poll empties the queue. *)
Example three_due_three_polls :
  observe (run E_tick 4 [OpLoop] w_three_due)
    = Ok ([RetVoid], mkView [act 2 0 0; act 3 0 0] 4 [Function 1%nat]) /\
  observe (run E_tick 4 [OpLoop; OpLoop] w_three_due)
    = Ok ([RetVoid; RetVoid],
          mkView [act 3 0 0] 5 [Function 1%nat; Function 2%nat]) /\
  observe (run E_tick 4 [OpLoop; OpLoop; OpLoop] w_three_due)
    = Ok ([RetVoid; RetVoid; RetVoid],
          mkView [] 6 [Function 1%nat; Function 2%nat; Function 3%nat]).
Proof. conjs; vm_compute; reflexivity. Qed.

(** ** C2: the result of a poll *)

(** Whatever the state, a poll returns the same (empty) value. *)
Lemma loop_result_unit E fuel w1 w2 r1 r2 w1' w2' :
  loop E fuel w1 = Ok (r1, w1') -> loop E fuel w2 = Ok (r2, w2') -> r1 = r2.
Proof. destruct r1, r2. reflexivity. Qed.

(** C2. [Actions::loop] is declared [void]. After [runLater(f1, 0)] on a
    scheduler of capacity 1, the first poll calls function 1 and the
    second poll calls nothing; both return no value, so the result of a
    poll does not tell the caller whether a callable ran. *)
Theorem loop_returns_no_signal :
  observe (run_from E_tick 2 1 [OpRunLater (req 1 0); OpLoop])
    = Ok ([RetBool true; RetVoid], mkView [] 2 [Function 1%nat]) /\
  observe (run_from E_tick 2 1 [OpRunLater (req 1 0); OpLoop; OpLoop])
    = Ok ([RetBool true; RetVoid; RetVoid], mkView [] 2 [Function 1%nat]).
Proof. split; vm_compute; reflexivity. Qed.

(** ** C3: order of dispatch *)

(** Each poll examines the pending list from its front and calls the
    first action that is due. *)
Lemma loop_calls_first_due E fuel w pre x post :
  wf (sched w) -> (capacity (sched w) < fuel)%nat ->
  pending (sched w) = pre ++ x :: post ->
  first_due E (reads w) pre = None ->
  is_due (clock_value E (useMicros x) (reads w + length pre)) x = true ->
  exists w', loop E fuel w = Ok (tt, w') /\
    trace w' = trace w ++ call_event (callback x).
Proof.
  intros Hwf Hfuel Hp Hpre Hx. pose proof (pending_le_capacity _ Hwf) as Hle.
  assert (first_due E (reads w) (pending (sched w)) = Some (pre, x, post)) as Hf.
  { rewrite Hp. clear - Hpre Hx. revert Hpre Hx. generalize (reads w).
    induction pre as [|a pre IH]; intros n Hpre Hx; cbn [first_due app length] in *.
    - rewrite Nat.add_0_r in Hx. now rewrite Hx.
    - destruct (is_due (clock_value E (useMicros a) n) a); [discriminate|].
      destruct (first_due E (S n) pre) as [[[? ?] ?]|] eqn:Hf; [discriminate|].
      rewrite (IH (S n)); [reflexivity|exact Hf|].
      now replace (S n + length pre)%nat with (n + S (length pre))%nat by lia. }
  destruct (loop_dispatch E fuel w pre x post Hwf) as (w' & Hrun & _ & _ & _ & _ & Ht);
    [lia|exact Hf|].
  exists w'. auto.
Qed.

(** Two actions with delay 0 registered in the order 1, 2 on an empty
    queue are called in that order by two polls. *)
Example fifo_two_zero_delay :
  observe (run_from E_tick 3 2 [OpRunLater (req 1 0); OpRunLater (req 2 0); OpLoop])
    = Ok ([RetBool true; RetBool true; RetVoid],
          mkView [act 2 1 0] 3 [Function 1%nat]) /\
  observe (run_from E_tick 3 2
             [OpRunLater (req 1 0); OpRunLater (req 2 0); OpLoop; OpLoop])
    = Ok ([RetBool true; RetBool true; RetVoid; RetVoid],
          mkView [] 4 [Function 1%nat; Function 2%nat]).
Proof. conjs; vm_compute; reflexivity. Qed.

(** C3. Dispatch is not always oldest-first. Functions 1, 2, 3 are
    registered in that order with delays 10, 0 and 8 ms at 0, 1 and 2 ms.
    The poll at 3 ms skips action 1, calls function 2 and leaves action 1
    behind action 3 in the queue. At 10 ms neither is due; at 11 ms both
    are due, and the poll calls function 3 although function 1 was
    registered first. *)
Theorem dispatch_not_oldest_first :
  observe (run_from E_fifo 4 3
             [OpRunLater (req 1 10); OpRunLater (req 2 0); OpRunLater (req 3 8);
              OpLoop; OpLoop])
    = Ok ([RetBool true; RetBool true; RetBool true; RetVoid; RetVoid],
          mkView [act 3 2 8; act 1 0 10] 7 [Function 2%nat]) /\
  is_due 10 (act 1 0 10) = false /\ is_due 10 (act 3 2 8) = false /\
  is_due 11 (act 1 0 10) = true /\ is_due 11 (act 3 2 8) = true /\
  observe (run_from E_fifo 4 3
             [OpRunLater (req 1 10); OpRunLater (req 2 0); OpRunLater (req 3 8);
              OpLoop; OpLoop; OpLoop])
    = Ok ([RetBool true; RetBool true; RetBool true; RetVoid; RetVoid; RetVoid],
          mkView [act 1 0 10] 8 [Function 2%nat; Function 3%nat]).
Proof. conjs; vm_compute; reflexivity. Qed.

(** ** C4: the due test *)

Lemma ulong_sub_exact t0 t1 :
  0 <= t1 - t0 < ULONG_MODULUS -> ulong_sub (ulong t1) (ulong t0) = t1 - t0.
Proof.
  intros H. unfold ulong_sub, ulong.
  rewrite <- Zminus_mod. now apply Z.mod_small.
Qed.

(** C4, as amended. An action is due exactly when the unsigned 32-bit
    difference [now - created] is strictly greater than [delay]. When
    [t0] and [t1] are the true times of registration and of the test (the
    clock values are these times modulo [2^32], so the counter may have
    wrapped in between) and less than one full period of the clock has
    elapsed, the test answers exactly whether more than [delay] ticks
    have elapsed. In particular an action with delay 0 is not due at zero
    elapsed time and is due one tick later. *)
Theorem is_due_exact :
  (forall now a,
     is_due now a = true <-> delay a < (now - created a) mod 2 ^ 32) /\
  (forall cb m t0 t1 d,
     0 <= d < 2 ^ 32 -> 0 <= t1 - t0 < 2 ^ 32 ->
     (is_due (ulong t1) (mkAction cb m (ulong t0) d) = true <-> d < t1 - t0)) /\
  (forall cb m t,
     is_due (ulong t) (mkAction cb m (ulong t) 0) = false /\
     is_due (ulong (t + 1)) (mkAction cb m (ulong t) 0) = true).
Proof.
  conjs.
  - intros now a. unfold is_due. rewrite Z.ltb_lt. reflexivity.
  - intros cb m t0 t1 d Hd Ht. unfold is_due. cbn [delay created].
    rewrite ulong_sub_exact by exact Ht. apply Z.ltb_lt.
  - intros cb m t. split; unfold is_due; cbn [delay created];
      rewrite ulong_sub_exact by (change ULONG_MODULUS with 4294967296; lia).
    + now rewrite Z.sub_diag.
    + apply Z.ltb_lt. lia.
Qed.

Lemma is_due_exact_witness :
  is_due (ulong (2 ^ 32 + 10)) (mkAction Callback_empty false (ulong (2 ^ 32 - 5)) 10)
    = true <-> 10 < (2 ^ 32 + 10) - (2 ^ 32 - 5).
Proof.
  apply (proj1 (proj2 is_due_exact) Callback_empty false (2 ^ 32 - 5) (2 ^ 32 + 10) 10);
    lia.
Defined.

(** C4 as stated, without the bound on the elapsed time, fails: an action
    registered at time 0 with a delay of [2^32 - 2] ticks and tested at
    the true time 4294968000, when more than [delay] ticks have elapsed,
    is reported not due, because the clock reads 704 again. So the test
    is not exact for all registration and test times. *)
Lemma is_due_false_negative :
  2 ^ 32 - 2 < 4294968000 - 0 /\
  is_due (ulong 4294968000) (mkAction Callback_empty true (ulong 0) (2 ^ 32 - 2))
    = false /\
  ~ (forall t0 t1 d,
       0 <= d < 2 ^ 32 -> t0 <= t1 ->
       (is_due (ulong t1) (mkAction Callback_empty true (ulong t0) d) = true
        <-> d < t1 - t0)).
Proof.
  split; [lia|]. split; [vm_compute; reflexivity|].
  intros H. destruct (H 0 4294968000 (2 ^ 32 - 2)) as [_ Hdue]; [lia | lia |].
  assert (is_due (ulong 4294968000)
            (mkAction Callback_empty true (ulong 0) (2 ^ 32 - 2)) = true) as Ht
    by (apply Hdue; lia).
  vm_compute in Ht. discriminate.
Qed.

(** The clock wraps between registration and the polls: an action
    registered at [2^32 - 3] with delay 4 is not called at [2^32 + 1]
    (4 ticks elapsed) and is called at [2^32 + 2]. *)
Example due_across_wraparound :
  observe (run_from E_wrap 2 1 [OpRunLater (req 1 4); OpLoop])
    = Ok ([RetBool true; RetVoid], mkView [act 1 (2 ^ 32 - 3) 4] 2 []) /\
  observe (run_from E_wrap 2 1 [OpRunLater (req 1 4); OpLoop; OpLoop])
    = Ok ([RetBool true; RetVoid; RetVoid], mkView [] 3 [Function 1%nat]).
Proof. conjs; vm_compute; reflexivity. Qed.

(** ** C5: the overflow callback *)

(** On a constructed scheduler [overflowCallback] is NULL, so
    [setOverflowCallback] writes through a NULL pointer. *)
Lemma setOverflowCallback_faults size s cb :
  Actions_ctor size = Ok s ->
  overflowCallback s = None /\ setOverflowCallback cb s = Err NullDereference.
Proof.
  intros Hs. apply Actions_ctor_Ok in Hs as (_ & (_ & Hn & _) & _).
  unfold setOverflowCallback. rewrite Hn. auto.
Qed.

(** In every well-formed state a [runLater] on a full queue returns false
    and calls nothing. *)
Lemma rejected_runLater_calls_nothing E fuel r w :
  wf (sched w) -> isFull (sched w) = true ->
  exists w', runLater E fuel r w = Ok (false, w') /\ trace w' = trace w.
Proof.
  intros Hwf Hfull.
  destruct (runLater_spec E fuel r w Hwf) as (w' & Hrun & _ & _ & _ & _ & Ht).
  assert ((length (pending (sched w)) <? capacity (sched w))%nat = false) as Hlt.
  { rewrite (isFull_pending _ Hwf) in Hfull. now apply negb_true_iff in Hfull. }
  rewrite Hlt in Hrun. exists w'. auto.
Qed.

(** C5. On a scheduler of capacity 1, [setOverflowCallback(f9)] writes
    through the NULL [overflowCallback] and installs nothing: the pointer
    is NULL before the call and no method assigns it. The second of two
    [runLater] calls is rejected and returns false, and no callable has
    been invoked: function 9 is not in the trace. *)
Theorem overflow_callback_never_called :
  Actions_ctor 1 = Ok (mkActions [Action_empty; Action_empty] 2 0 0 None) /\
  setOverflowCallback (Callback_function (Some 9%nat))
      (mkActions [Action_empty; Action_empty] 2 0 0 None)
    = Err NullDereference /\
  observe (run_from E_tick 2 1 [OpRunLater (req 1 0); OpRunLater (req 2 0)])
    = Ok ([RetBool true; RetBool false], mkView [act 1 0 0] 2 []).
Proof. conjs; vm_compute; reflexivity. Qed.

(** ** C6 and C7: capacity *)



Lemma spec_run_dead E ops : forall v,
  v_pending v = [] ->
  (forall b, In (RetBool b) (fst (spec_run E 0 ops v)) -> b = false) /\
  v_pending (snd (spec_run E 0 ops v)) = [].
Proof.
  induction ops as [|o ops IH]; intros v Hv; cbn [spec_run].
  - cbn. split; [tauto|exact Hv].
  - assert (exists v1, spec_step E 0 o v = (match o with
                                            | OpRunLater _ => RetBool false
                                            | OpLoop => RetVoid
                                            end, v1) /\ v_pending v1 = []) as (v1 & -> & Hv1).
    { destruct o as [r|]; unfold spec_step, spec_runLater, spec_loop.
      - rewrite Hv. cbn. eauto.
      - rewrite Hv. cbn. eauto. }
    destruct (IH v1 Hv1) as [Hr Hp].
    destruct (spec_run E 0 ops v1) as [rs v2]. cbn in *.
    split; [|exact Hp].
    intros b [Hb|Hb]; [|now apply Hr].
    destruct o; now inversion Hb.
Qed.



(** Whatever else the state holds, a scheduler whose [queueSize] is at
    most 1 and that has no overflow callback rejects [runLater] and leaves
    the scheduler as it is. *)
Lemma small_queueSize_rejects E fuel r w :
  queueSize (sched w) <= 1 -> overflowCallback (sched w) = None ->
  exists w', runLater E fuel r w = Ok (false, w') /\ sched w' = sched w.
Proof.
  intros Hq Hn. unfold runLater, runLater_request, Action_ctor, clock_read,
    runLater_action. cbn [sched].
  rewrite (isFull_small _ Hq), Hn. cbn. eauto.
Qed.

(** A scheduler whose construction with a requested size [c <= 0]
    completes (sizes 0 and -1) rejects every [runLater] call, whatever its
    arguments and whatever calls came before; no action is ever pending. *)
Theorem nonpositive_capacity_rejects c w0 :
  c <= 0 -> World_init c = Ok w0 ->
  forall E fuel ops,
    (In OpLoop ops -> (0 < fuel)%nat) ->
    exists rs w,
      run E fuel ops w0 = Ok (rs, w) /\
      (forall b, In (RetBool b) rs -> b = false) /\
      pending (sched w) = [].
Proof.
  intros Hc Hinit E fuel ops Hfuel.
  apply World_init_Ok in Hinit as (_ & Hwf & Hq & _ & _ & Hv).
  assert (capacity (sched w0) = O) as Hcap by (unfold capacity; lia).
  destruct (run_refines E fuel ops w0 Hwf) as (w & Hrun & _ & _ & Hvw);
    [rewrite Hcap; exact Hfuel|].
  rewrite Hcap, Hv in Hrun, Hvw.
  destruct (spec_run_dead E ops (mkView [] 0 []) eq_refl) as [Hr Hp].
  eexists _, w. split; [exact Hrun|]. split; [exact Hr|].
  rewrite <- Hvw in Hp. exact Hp.
Qed.

Lemma nonpositive_capacity_rejects_witness :
  exists rs w,
    run E_tick 1 [OpRunLater (req 1 0); OpLoop; OpRunLater (req 2 1000)]
        (mkWorld (mkActions [] 0 0 0 None) 0 []) = Ok (rs, w) /\
    (forall b, In (RetBool b) rs -> b = false) /\
    pending (sched w) = [].
Proof.
  apply (nonpositive_capacity_rejects (-1) (mkWorld (mkActions [] 0 0 0 None) 0 []));
    [lia | reflexivity | intros _; lia].
Defined.

(** For a size below -1 the constructor asks for an array of negative
    length. *)
Lemma Actions_ctor_negative c :
  c <= -2 -> Actions_ctor c = Err BadArrayNewLength.
Proof.
  intros Hc. unfold Actions_ctor, INT_MAX.
  destruct (Z.ltb_spec 32767 (c + 1)); [lia|].
  destruct (Z.ltb_spec (c + 1) 0); [reflexivity|lia].
Qed.

(** C7. The constructor does not clamp a negative size: [queueSize = 0]
    is overwritten by [queueSize = size], and for size -2 the array is
    requested with length -1, so no scheduler comes into being and the
    [runLater] that follows returns nothing, where the claim has it return
    false. For sizes -1 and 0 the scheduler is constructed and [runLater]
    returns false. *)
Theorem negative_size_not_clamped :
  Actions_ctor (-2) = Err BadArrayNewLength /\
  run_from E_tick 1 (-2) [OpRunLater (req 1 0)] = Err BadArrayNewLength /\
  observe (run_from E_tick 1 (-1) [OpRunLater (req 1 0)])
    = Ok ([RetBool false], mkView [] 1 []) /\
  observe (run_from E_tick 1 0 [OpRunLater (req 1 0)])
    = Ok ([RetBool false], mkView [] 1 []).
Proof. conjs; vm_compute; reflexivity. Qed.

(** The tests of the repository: sizes -1 and 0 accept nothing, size 1
    accepts one action and size 2 accepts two. *)
Example queue_size_tests :
  observe (run_from E_tick 1 (-1) [OpRunLater (req 1 0)])
    = Ok ([RetBool false], mkView [] 1 []) /\
  observe (run_from E_tick 1 0 [OpRunLater (req 1 0)])
    = Ok ([RetBool false], mkView [] 1 []) /\
  observe (run_from E_tick 2 1
             [OpRunLater (req 1 0); OpRunLater (req 1 0); OpLoop; OpLoop;
              OpRunLater (req 1 0); OpRunLater (req 1 0); OpLoop; OpLoop])
    = Ok ([RetBool true; RetBool false; RetVoid; RetVoid;
           RetBool true; RetBool false; RetVoid; RetVoid],
          mkView [] 6 [Function 1%nat; Function 1%nat]) /\
  observe (run_from E_tick 3 2
             [OpRunLater (req 1 0); OpRunLater (req 1 0); OpRunLater (req 1 0)])
    = Ok ([RetBool true; RetBool true; RetBool false],
          mkView [act 1 0 0; act 1 1 0] 3 []).
Proof. conjs; vm_compute; reflexivity. Qed.

(** ** C8: a poll that finds nothing due *)

(** C8. When no pending action is due at the clock read made for it, the
    poll examines every pending action exactly once (one clock read
    each), calls nothing, and leaves the same actions, with their
    [created] and [delay] fields, in the same order. *)
Theorem idle_poll_preserves_pending E fuel w :
  wf (sched w) -> (capacity (sched w) < fuel)%nat ->
  (forall k a, pending (sched w) !! k = Some a ->
     is_due (clock_value E (useMicros a) (reads w + k)) a = false) ->
  exists w',
    loop E fuel w = Ok (tt, w') /\
    pending (sched w') = pending (sched w) /\
    trace w' = trace w /\
    reads w' = (reads w + length (pending (sched w)))%nat.
Proof.
  intros Hwf Hfuel Hnot. pose proof (pending_le_capacity _ Hwf) as Hle.
  apply first_due_None in Hnot.
  destruct (loop_idle E fuel w Hwf) as (w' & Hrun & _ & Hp & _ & Hr & Ht);
    [lia|exact Hnot|].
  exists w'. auto.
Qed.

Lemma idle_poll_preserves_pending_witness :
  exists w',
    loop E_tick 4 w_waiting = Ok (tt, w') /\
    pending (sched w') = pending (sched w_waiting) /\
    trace w' = trace w_waiting /\
    reads w' = (reads w_waiting + length (pending (sched w_waiting)))%nat.
Proof.
  apply (idle_poll_preserves_pending E_tick 4 w_waiting).
  - wf_concrete.
  - vm_compute. lia.
  - intros [|[|k]] a H; vm_compute in H; inversion H; reflexivity.
Defined.

(** A task with delay 1000 is polled right after its registration: the
    poll calls nothing and the task stays pending with its fields. *)
Example not_due_survives_poll :
  observe (run_from E_tick 2 1 [OpRunLater (req 1 1000); OpLoop])
    = Ok ([RetBool true; RetVoid], mkView [act 1 0 1000] 2 []).
Proof. vm_compute. reflexivity. Qed.

(** ** C9: scheduling from inside a callback *)

(** C9. When the dispatched callback calls [runLater] on the same
    scheduler, its first such call is accepted (the slot of the
    dispatched action is free), the new action is appended behind all
    pending actions, and the poll ends after the callback: the trace
    gains the dispatched callback only, so nothing scheduled by the
    callback is examined or called by this poll. *)
Theorem reentrant_runLater E fuel w pre x post t r rs :
  wf (sched w) -> (capacity (sched w) < fuel)%nat ->
  first_due E (reads w) (pending (sched w)) = Some (pre, x, post) ->
  Callback_target (callback x) = Some t ->
  body E t = r :: rs ->
  exists w' rest,
    loop E fuel w = Ok (tt, w') /\
    trace w' = trace w ++ [t] /\
    pending (sched w')
      = post ++ pre ++ Action_of E (reads w + S (length pre)) r :: rest /\
    reads w' = (reads w + S (length pre) + S (length rs))%nat.
Proof.
  intros Hwf Hfuel Hf Ht Hb. pose proof (pending_le_capacity _ Hwf) as Hle.
  destruct (loop_dispatch E fuel w pre x post Hwf) as (w' & Hrun & _ & Hp & _ & Hr & Htr);
    [lia|exact Hf|].
  unfold call_body, call_event in *. rewrite Ht, Hb in *.
  apply first_due_Some in Hf as (Hpend & _ & _).
  assert (length (post ++ pre) < capacity (sched w))%nat as Hroom.
  { rewrite Hpend in Hle. rewrite !length_app in *. simpl in Hle. lia. }
  cbn [enqueue_all] in Hp.
  apply Nat.ltb_lt in Hroom. rewrite Hroom in Hp.
  destruct (enqueue_all_app E (capacity (sched w)) rs (S (reads w + S (length pre)))
              ((post ++ pre) ++ [Action_of E (reads w + S (length pre)) r]))
    as [rest Hrest].
  exists w', rest. conjs; auto.
  rewrite Hp, Hrest, <- !app_assoc. reflexivity.
Qed.

Lemma reentrant_runLater_witness :
  exists w' rest,
    loop E_blink 2 w_blink = Ok (tt, w') /\
    trace w' = trace w_blink ++ [Function 1%nat] /\
    pending (sched w')
      = [] ++ [] ++ Action_of E_blink (reads w_blink + S (length (@nil Action)))
                                      (req 1 500) :: rest /\
    reads w' = (reads w_blink + S (length (@nil Action))
                + S (length (@nil Request)))%nat.
Proof.
  apply (reentrant_runLater E_blink 2 w_blink [] (act 1 0 0) [] (Function 1%nat)
           (req 1 500) []).
  - wf_concrete.
  - vm_compute. lia.
  - reflexivity.
  - reflexivity.
  - reflexivity.
Defined.

(** The blink pattern: the callback re-schedules itself; the new action
    is pending after the poll and is called by a later poll only. *)
Example blink_reschedules :
  observe (run_from E_blink 2 1 [OpRunLater (req 1 0); OpLoop])
    = Ok ([RetBool true; RetVoid], mkView [act 1 2 500] 3 [Function 1%nat]) /\
  observe (run_from E_blink 2 1 [OpRunLater (req 1 0); OpLoop; OpLoop])
    = Ok ([RetBool true; RetVoid; RetVoid],
          mkView [act 1 2 500] 4 [Function 1%nat]).
Proof. conjs; vm_compute; reflexivity. Qed.

(** ** C10: the indices stay inside the array *)

Lemma wf_in_bounds size s :
  0 <= size -> wf s -> queueSize s = size + 1 -> in_bounds size s.
Proof. unfold wf, in_bounds. intros. lia. Qed.

Lemma remove_in_bounds size x s :
  0 <= size -> wf s -> queueSize s = size + 1 ->
  exists b a s', remove x s = Ok (b, a, s') /\ in_bounds size s'.
Proof.
  intros Hsize Hwf Hq. destruct (QUEUE_IS_EMPTY s) eqn:He.
  - exists false, x, s. unfold remove. rewrite He. cbn.
    split; [reflexivity|]. now apply wf_in_bounds.
  - destruct (remove_pop x s Hwf He) as (a & s' & Hrem & Hwf' & _ & Hq' & _).
    exists true, a, s'. split; [exact Hrem|]. apply wf_in_bounds; congruence.
Qed.

Lemma runLater_action_in_bounds size call a w :
  0 <= size -> wf (sched w) -> queueSize (sched w) = size + 1 ->
  exists b w', runLater_action call a w = Ok (b, w') /\ in_bounds size (sched w').
Proof.
  intros Hsize Hwf Hq. destruct (isFull (sched w)) eqn:Hfull.
  - exists false, w. rewrite (runLater_action_full call a w Hwf Hfull).
    split; [reflexivity|]. now apply wf_in_bounds.
  - destruct (runLater_action_push call a w Hwf Hfull) as (w' & Hrun & Hwf' & _ & Hq' & _).
    exists true, w'. split; [exact Hrun|]. apply wf_in_bounds; congruence.
Qed.

(** C10. For a scheduler constructed with [size >= 0], [head] and [tail]
    lie in [[0, size + 1)] and the array has [size + 1] slots after
    construction and after any sequence of [runLater] and [loop] calls
    (which run without an out-of-bounds access), and a following [remove]
    or [runLater(Action)] keeps them there. *)
Theorem indices_in_bounds size w0 :
  0 <= size -> World_init size = Ok w0 ->
  in_bounds size (sched w0) /\
  forall E fuel ops,
    (Z.to_nat size < fuel)%nat ->
    exists rs w,
      run E fuel ops w0 = Ok (rs, w) /\
      in_bounds size (sched w) /\
      (forall x, exists b a s',
         remove x (sched w) = Ok (b, a, s') /\ in_bounds size s') /\
      (forall a, exists b w',
         runLater_action (Callback_call E fuel) a w = Ok (b, w') /\
         in_bounds size (sched w')).
Proof.
  intros Hsize Hinit.
  apply World_init_Ok in Hinit as (_ & Hwf & Hq & _ & _ & _).
  split; [now apply wf_in_bounds|].
  intros E fuel ops Hfuel.
  destruct (run_refines E fuel ops w0 Hwf) as (w & Hrun & Hwfw & Hqw & _).
  { intros _. unfold capacity. rewrite Hq. replace (size + 1 - 1) with size by lia.
    exact Hfuel. }
  rewrite Hq in Hqw.
  eexists _, w. split; [exact Hrun|]. split; [now apply wf_in_bounds|]. split.
  - intros x. now apply remove_in_bounds.
  - intros a. now apply runLater_action_in_bounds.
Qed.

Lemma indices_in_bounds_witness :
  in_bounds 1 (mkActions [Action_empty; Action_empty] 2 0 0 None) /\
  exists rs w,
    run E_blink 2 [OpRunLater (req 1 0); OpLoop; OpLoop]
        (mkWorld (mkActions [Action_empty; Action_empty] 2 0 0 None) 0 [])
      = Ok (rs, w) /\
    in_bounds 1 (sched w).
Proof.
  destruct (indices_in_bounds 1
              (mkWorld (mkActions [Action_empty; Action_empty] 2 0 0 None) 0 []))
    as [H0 Hrun]; [lia | reflexivity |].
  split; [exact H0|].
  destruct (Hrun E_blink 2%nat [OpRunLater (req 1 0); OpLoop; OpLoop])
    as (rs & w & Hr & Hb & _); [vm_compute; lia|].
  exists rs, w. split; assumption.
Defined.

(** * Further properties of the code *)

(** ** The ring of slots: [nextSlot], [getSize], [isFull] *)

Lemma nextSlot_step s i :
  0 <= i < queueSize s ->
  nextSlot s i = (i + 1) mod queueSize s /\ 0 <= nextSlot s i < queueSize s.
Proof.
  intros Hi. unfold nextSlot. destruct (Z.eqb_spec i (queueSize s - 1)) as [->|Hne].
  - replace (queueSize s - 1 + 1) with (queueSize s) by lia.
    rewrite Z.mod_same by lia. lia.
  - rewrite Z.mod_small by lia. lia.
Qed.

Lemma nextSlot_iter s i k :
  0 <= i < queueSize s ->
  Nat.iter k (nextSlot s) i = (i + Z.of_nat k) mod queueSize s.
Proof.
  intros Hi. induction k as [|k IH].
  - cbn. rewrite Z.add_0_r, Z.mod_small by lia. reflexivity.
  - change (Nat.iter (S k) (nextSlot s) i)
      with (nextSlot s (Nat.iter k (nextSlot s) i)).
    rewrite IH.
    destruct (nextSlot_step s ((i + Z.of_nat k) mod queueSize s)) as [-> _].
    { apply Z.mod_pos_bound. lia. }
    rewrite Zplus_mod_idemp_l. f_equal. lia.
Qed.

(** X1. [nextSlot] is the successor modulo [queueSize]: [n] steps from a
    slot [i] of the array lead to slot [(i + n) mod queueSize], so
    [queueSize] steps lead back to [i]. *)
Theorem nextSlot_cycle s i n :
  0 <= i < queueSize s ->
  Nat.iter n (nextSlot s) i = (i + Z.of_nat n) mod queueSize s /\
  Nat.iter (Z.to_nat (queueSize s)) (nextSlot s) i = i.
Proof.
  intros Hi. split; [now apply nextSlot_iter|].
  rewrite nextSlot_iter, Z2Nat.id by lia.
  replace (i + queueSize s) with (i + 1 * queueSize s) by lia.
  rewrite Z.mod_add by lia. apply Z.mod_small. lia.
Qed.

Lemma nextSlot_cycle_witness :
  Nat.iter 3 (nextSlot (sched w_three_due)) 2 = (2 + Z.of_nat 3) mod 4 /\
  Nat.iter (Z.to_nat 4) (nextSlot (sched w_three_due)) 2 = 2.
Proof. apply (nextSlot_cycle (sched w_three_due) 2 3). cbn. lia. Defined.

(** X2. In a well-formed state with at least one slot, [getSize] is the
    distance from [tail] to [head] around the ring; it is the number of
    pending actions and never exceeds [queueSize - 1]. *)
Theorem getSize_ring s :
  wf s -> 0 < queueSize s ->
  getSize s = (head s - tail s) mod queueSize s /\
  getSize s = Z.of_nat (length (pending s)) /\
  0 <= getSize s <= queueSize s - 1.
Proof.
  intros Hwf Hq. pose proof (pending_length s Hwf) as Hlen.
  pose proof (getSize_nonneg s Hwf) as H0.
  split; [|split; [lia|]].
  - destruct Hwf as (_ & _ & [[Hh Ht]|?]); [|lia].
    unfold getSize, QUEUE_IS_EMPTY.
    destruct (Z.ltb_spec (tail s) (head s)).
    + rewrite Z.mod_small by lia. reflexivity.
    + destruct (Z.eqb_spec (tail s) (head s)) as [->|Hne]; cbn [negb].
      * now rewrite Z.sub_diag, Z.mod_0_l by lia.
      * apply Z.mod_unique with (-1); lia.
  - pose proof (getSize_bound s Hwf). unfold capacity in *. lia.
Qed.

Lemma getSize_ring_witness :
  getSize (sched w_three_due)
    = (head (sched w_three_due) - tail (sched w_three_due))
        mod queueSize (sched w_three_due) /\
  getSize (sched w_three_due) = Z.of_nat (length (pending (sched w_three_due))) /\
  0 <= getSize (sched w_three_due) <= queueSize (sched w_three_due) - 1.
Proof. apply (getSize_ring (sched w_three_due)); [wf_concrete | cbn; lia]. Defined.

(** X3. In a well-formed state with more than one slot, [isFull] holds
    exactly when the slot after [head] is [tail], which is exactly when
    [queueSize - 1] actions are pending: one slot always stays unused. *)
Theorem isFull_ring s :
  wf s -> 1 < queueSize s ->
  (isFull s = true <-> (head s + 1) mod queueSize s = tail s) /\
  (isFull s = true <-> getSize s = queueSize s - 1).
Proof.
  intros Hwf Hq. split.
  - destruct Hwf as (_ & _ & [[Hh Ht]|?]); [|lia].
    destruct (nextSlot_step s (head s) Hh) as [<- _].
    unfold isFull, nextSlot.
    destruct (Z.leb_spec (queueSize s) 1); [lia|].
    destruct (Z.eqb_spec (head s) (queueSize s - 1));
      rewrite Z.eqb_eq; split; intros; lia.
  - rewrite (isFull_getSize s Hwf). pose proof (getSize_nonneg s Hwf).
    unfold capacity. split; intros; lia.
Qed.

Lemma isFull_ring_witness :
  (isFull (sched w_three_due) = true
   <-> (head (sched w_three_due) + 1) mod queueSize (sched w_three_due)
       = tail (sched w_three_due)) /\
  (isFull (sched w_three_due) = true
   <-> getSize (sched w_three_due) = queueSize (sched w_three_due) - 1).
Proof. apply (isFull_ring (sched w_three_due)); [wf_concrete | cbn; lia]. Defined.

(** ** [remove] and [runLater(Action)] as a first-in first-out queue *)

Lemma remove_empty x s :
  QUEUE_IS_EMPTY s = true -> remove x s = Ok (false, x, s).
Proof. intros He. unfold remove. now rewrite He. Qed.

Lemma drain_spec n : forall x s,
  wf s -> (Z.to_nat (getSize s) <= n)%nat ->
  exists s', drain n x s = Ok (pending s, s') /\
    wf s' /\ QUEUE_IS_EMPTY s' = true /\ queueSize s' = queueSize s.
Proof.
  induction n as [|n IH]; intros x s Hwf Hn.
  - assert (getSize s = 0) as Hg by (pose proof (getSize_nonneg s Hwf); lia).
    exists s. cbn. unfold pending. rewrite Hg. cbn.
    conjs; auto. now apply empty_getSize.
  - cbn [drain]. destruct (QUEUE_IS_EMPTY s) eqn:He.
    + rewrite (remove_empty x s He). cbn.
      apply (empty_getSize s Hwf) in He as Hg.
      exists s. unfold pending. rewrite Hg. cbn. conjs; auto.
    + destruct (remove_pop x s Hwf He) as (a & s1 & Hrem & Hwf1 & Hp & Hq & _).
      rewrite Hrem. cbn.
      pose proof (pending_length s Hwf) as Hl.
      pose proof (pending_length s1 Hwf1) as Hl1.
      rewrite Hp in Hl. cbn in Hl.
      destruct (IH a s1 Hwf1) as (s' & Hd & Hwf' & He' & Hq'); [lia|].
      rewrite Hd. cbn. exists s'. rewrite Hp. conjs; auto. congruence.
Qed.

(** X4. In a well-formed state, calling [remove] until it fails returns
    the pending actions in queue order, [getSize] of them, and leaves the
    queue empty; a further [remove] returns false and does not touch the
    caller's buffer. *)
Theorem drain_returns_pending n x s :
  wf s -> (Z.to_nat (getSize s) <= n)%nat ->
  exists s',
    drain n x s = Ok (pending s, s') /\
    length (pending s) = Z.to_nat (getSize s) /\
    getSize s' = 0 /\
    forall y, remove y s' = Ok (false, y, s').
Proof.
  intros Hwf Hn.
  destruct (drain_spec n x s Hwf Hn) as (s' & Hd & Hwf' & He & _).
  exists s'. conjs; auto using pending_length.
  - now apply empty_getSize.
  - intros y. now apply remove_empty.
Qed.

Lemma drain_returns_pending_witness :
  exists s',
    drain 5 Action_empty (sched w_three_due)
      = Ok (pending (sched w_three_due), s') /\
    length (pending (sched w_three_due)) = Z.to_nat (getSize (sched w_three_due)) /\
    getSize s' = 0 /\
    forall y, remove y s' = Ok (false, y, s').
Proof.
  apply (drain_returns_pending 5 Action_empty (sched w_three_due));
    [wf_concrete | vm_compute; lia].
Defined.

Lemma push_all_spec call l : forall w,
  wf (sched w) ->
  let room := (capacity (sched w) - length (pending (sched w)))%nat in
  exists w', push_all call l w
      = Ok (replicate (Nat.min room (length l)) true
              ++ replicate (length l - room) false, w') /\
    wf (sched w') /\
    pending (sched w') = pending (sched w) ++ take room l /\
    queueSize (sched w') = queueSize (sched w) /\
    reads w' = reads w /\ trace w' = trace w.
Proof.
  induction l as [|a l IH]; intros w Hwf room.
  - exists w. cbn. rewrite Nat.min_0_r, take_nil. cbn. conjs; auto.
    now rewrite app_nil_r.
  - cbn [push_all]. pose proof (pending_le_capacity _ Hwf) as Hle.
    pose proof (isFull_pending _ Hwf) as Hfp.
    destruct (isFull (sched w)) eqn:Hfull.
    + symmetry in Hfp. apply negb_true_iff, Nat.ltb_ge in Hfp.
      assert (room = O) as Hroom by (subst room; lia).
      rewrite (runLater_action_full call a w Hwf Hfull). cbn.
      destruct (IH w Hwf) as (w' & Hrun & Hwf' & Hp & Hq & Hr & Ht).
      fold room in Hrun, Hp. rewrite Hroom in *. rewrite Hrun. cbn.
      exists w'. cbn in Hp. conjs; auto.
      rewrite Nat.sub_0_r. reflexivity.
    + symmetry in Hfp. apply negb_false_iff, Nat.ltb_lt in Hfp.
      destruct (runLater_action_push call a w Hwf Hfull)
        as (w1 & Hrun1 & Hwf1 & Hp1 & Hq1 & Hr1 & Ht1).
      rewrite Hrun1. cbn.
      destruct (IH w1 Hwf1) as (w' & Hrun & Hwf' & Hp & Hq & Hr & Ht).
      assert ((capacity (sched w1) - length (pending (sched w1)))%nat = (room - 1)%nat)
        as Hroom1.
      { unfold capacity. rewrite Hq1, Hp1, length_app. cbn. subst room.
        unfold capacity. lia. }
      rewrite Hroom1 in Hrun, Hp. rewrite Hrun. cbn.
      assert (exists room', room = S room') as [room' Hroom']
        by (exists (room - 1)%nat; subst room; lia).
      clearbody room. subst room.
      exists w'.
      cbn [length take Nat.min replicate app Nat.sub] in *.
      rewrite Nat.sub_0_r in *.
      conjs; auto; try congruence.
      rewrite Hp, Hp1, <- app_assoc. reflexivity.
Qed.

(** X5. On a well-formed state, queueing a list of actions with
    [runLater(Action)] accepts them in order as long as there is room and
    rejects the rest, without reordering or dropping what was pending;
    draining the queue afterwards returns the old pending actions
    followed by the accepted ones, in the order they were queued. *)
Theorem push_then_drain call l w n x :
  wf (sched w) ->
  let room := (capacity (sched w) - length (pending (sched w)))%nat in
  (capacity (sched w) <= n)%nat ->
  exists w' s',
    push_all call l w
      = Ok (replicate (Nat.min room (length l)) true
              ++ replicate (length l - room) false, w') /\
    drain n x (sched w') = Ok (pending (sched w) ++ take room l, s') /\
    getSize s' = 0.
Proof.
  intros Hwf room Hn.
  destruct (push_all_spec call l w Hwf) as (w' & Hpush & Hwf' & Hp & Hq & _).
  fold room in Hpush, Hp.
  destruct (drain_spec n x (sched w') Hwf') as (s' & Hd & Hwf'' & He & _).
  { pose proof (getSize_bound _ Hwf'). unfold capacity in *. rewrite Hq in *. lia. }
  exists w', s'. rewrite <- Hp. conjs; auto. now apply empty_getSize.
Qed.

Lemma push_then_drain_witness :
  exists w' s',
    push_all (Callback_call E_tick 1) [act 3 5 0; act 4 6 0; act 5 7 0] w_waiting
      = Ok (replicate (Nat.min 1 3) true ++ replicate (3 - 1) false, w') /\
    drain 3 Action_empty (sched w')
      = Ok (pending (sched w_waiting) ++ take 1 [act 3 5 0; act 4 6 0; act 5 7 0], s') /\
    getSize s' = 0.
Proof.
  apply (push_then_drain (Callback_call E_tick 1) [act 3 5 0; act 4 6 0; act 5 7 0]
           w_waiting 3 Action_empty); [wf_concrete | vm_compute; lia].
Defined.

(** ** The public [runLater] overloads *)

(** X6. In a well-formed state both public [runLater] overloads read the
    clock once, call nothing, and return true exactly when fewer than
    [queueSize - 1] actions are pending; then the new action, stamped with
    that clock value and the delay reduced to [unsigned long], is behind
    all pending actions, otherwise the pending list is unchanged. *)
Theorem runLater_overloads E fuel w f inst meth d m :
  wf (sched w) ->
  let ok := (length (pending (sched w)) <? capacity (sched w))%nat in
  let queued cb :=
    if ok then pending (sched w)
               ++ [mkAction cb m (clock_value E m (reads w)) (d mod 2 ^ 32)]
    else pending (sched w) in
  (exists w', runLater_function E fuel f d m w = Ok (ok, w') /\
     pending (sched w') = queued (Callback_function f) /\
     reads w' = S (reads w) /\ trace w' = trace w) /\
  (exists w', runLater_method E fuel inst meth d m w = Ok (ok, w') /\
     pending (sched w') = queued (Callback_method inst meth) /\
     reads w' = S (reads w) /\ trace w' = trace w).
Proof.
  intros Hwf ok queued. split.
  - destruct (runLater_spec E fuel (mkRequest (Callback_function f) d m) w Hwf)
      as (w' & Hrun & _ & Hp & _ & Hr & Ht).
    exists w'. conjs; auto.
  - destruct (runLater_spec E fuel (mkRequest (Callback_method inst meth) d m) w Hwf)
      as (w' & Hrun & _ & Hp & _ & Hr & Ht).
    exists w'. conjs; auto.
Qed.

Lemma runLater_overloads_witness :
  (exists w', runLater_function E_tick 0 None 7 true w_waiting = Ok (true, w') /\
     pending (sched w')
       = pending (sched w_waiting)
           ++ [mkAction (Callback_function None) true 2000 7] /\
     reads w' = 3%nat /\ trace w' = []) /\
  (exists w', runLater_method E_tick 0 (Some 4%nat) (Some 5%nat) 7 true w_waiting
       = Ok (true, w') /\
     pending (sched w')
       = pending (sched w_waiting)
           ++ [mkAction (Callback_method (Some 4%nat) (Some 5%nat)) true 2000 7] /\
     reads w' = 3%nat /\ trace w' = []).
Proof.
  apply (runLater_overloads E_tick 0 w_waiting None (Some 4%nat) (Some 5%nat) 7 true).
  wf_concrete.
Defined.

(** ** What a poll calls *)

(** X7. A poll never calls an action that is not due: whenever
    [Actions::loop] makes a call, it is the callback of a pending action
    whose [delay] is smaller than the unsigned difference between the
    clock value read for it and its [created] stamp, and no action before
    it in the queue was due when it was examined. *)
Theorem poll_calls_only_due E fuel w w' :
  wf (sched w) -> (capacity (sched w) < fuel)%nat ->
  loop E fuel w = Ok (tt, w') -> trace w' <> trace w ->
  exists pre x post,
    pending (sched w) = pre ++ x :: post /\
    trace w' = trace w ++ call_event (callback x) /\
    delay x < ulong_sub (clock_value E (useMicros x) (reads w + length pre))
                        (created x) /\
    forall k a, pre !! k = Some a ->
      is_due (clock_value E (useMicros a) (reads w + k)) a = false.
Proof.
  intros Hwf Hfuel Hrun Hne. pose proof (pending_le_capacity _ Hwf) as Hle.
  destruct (first_due E (reads w) (pending (sched w))) as [[[pre x] post]|] eqn:Hf.
  - destruct (loop_dispatch E fuel w pre x post Hwf) as (w1 & Hrun1 & _ & _ & _ & _ & Ht);
      [lia|exact Hf|].
    rewrite Hrun in Hrun1. injection Hrun1 as <-.
    apply first_due_Some in Hf as (Hp & Hx & Hpre).
    exists pre, x, post. conjs; auto.
    + unfold is_due in Hx. now apply Z.ltb_lt in Hx.
    + now apply first_due_None.
  - destruct (loop_idle E fuel w Hwf) as (w1 & Hrun1 & _ & _ & _ & _ & Ht);
      [lia|exact Hf|].
    rewrite Hrun in Hrun1. injection Hrun1 as <-. contradiction.
Qed.

Lemma poll_calls_only_due_witness :
  exists pre x post,
    pending (sched w_full_due) = pre ++ x :: post /\
    trace (mkWorld (mkActions [act 1 0 1000; act 2 0 0; act 1 0 1000] 3 0 2 None)
                   4 [Function 2%nat])
      = trace w_full_due ++ call_event (callback x) /\
    delay x < ulong_sub (clock_value E_tick (useMicros x)
                           (reads w_full_due + length pre)) (created x) /\
    forall k a, pre !! k = Some a ->
      is_due (clock_value E_tick (useMicros a) (reads w_full_due + k)) a = false.
Proof.
  apply (poll_calls_only_due E_tick 3 w_full_due).
  - wf_concrete.
  - vm_compute. lia.
  - vm_compute. reflexivity.
  - discriminate.
Defined.

(** X8. An action whose callback holds no function pointer and lacks the
    instance or the method pointer (as after [runLater(NULL, d)]) is
    dispatched like any other when it is due: it leaves the queue, the
    actions skipped before it move behind the others, and nothing is
    called. *)
Theorem null_callback_dropped E fuel w pre x post :
  wf (sched w) -> (capacity (sched w) < fuel)%nat ->
  first_due E (reads w) (pending (sched w)) = Some (pre, x, post) ->
  functionCallback (callback x) = None ->
  methodInstance (callback x) = None \/ methodCallback (callback x) = None ->
  exists w',
    loop E fuel w = Ok (tt, w') /\
    trace w' = trace w /\
    pending (sched w') = post ++ pre /\
    reads w' = (reads w + S (length pre))%nat.
Proof.
  intros Hwf Hfuel Hf Hfn Hm. pose proof (pending_le_capacity _ Hwf) as Hle.
  destruct (loop_dispatch E fuel w pre x post Hwf) as (w' & Hrun & _ & Hp & _ & Hr & Ht);
    [lia|exact Hf|].
  assert (Callback_target (callback x) = None) as Hnone.
  { unfold Callback_target. rewrite Hfn.
    destruct Hm as [-> | ->]; [reflexivity|].
    now destruct (methodInstance (callback x)). }
  unfold call_body, call_event in *. rewrite Hnone in *. cbn in Hp.
  exists w'. conjs; auto.
  - now rewrite Ht, app_nil_r.
  - rewrite Hr. cbn. lia.
Qed.

Lemma null_callback_dropped_witness :
  exists w',
    loop E_tick 2
         (mkWorld (mkActions [mkAction (Callback_function None) false 0 0; Action_empty]
                             2 1 0 None) 1 [])
      = Ok (tt, w') /\
    trace w' = [] /\
    pending (sched w') = [] ++ [] /\
    reads w' = (1 + S (length (@nil Action)))%nat.
Proof.
  apply (null_callback_dropped E_tick 2
           (mkWorld (mkActions [mkAction (Callback_function None) false 0 0; Action_empty]
                               2 1 0 None) 1 [])
           [] (mkAction (Callback_function None) false 0 0) []).
  - wf_concrete.
  - vm_compute. lia.
  - vm_compute. reflexivity.
  - reflexivity.
  - left. reflexivity.
Defined.

(** X9. Dispatching one action from a full queue frees exactly one slot:
    when the dispatched callback schedules nothing, the next [runLater]
    is accepted and the one after it is rejected. *)
Theorem dispatch_frees_one_slot E fuel w pre x post r1 r2 :
  wf (sched w) -> (capacity (sched w) < fuel)%nat ->
  isFull (sched w) = true ->
  first_due E (reads w) (pending (sched w)) = Some (pre, x, post) ->
  call_body E (callback x) = [] ->
  exists w',
    run E fuel [OpLoop; OpRunLater r1; OpRunLater r2] w
      = Ok ([RetVoid; RetBool true; RetBool false], w') /\
    pending (sched w')
      = post ++ pre ++ [Action_of E (reads w + S (length pre)) r1].
Proof.
  intros Hwf Hfuel Hfull Hf Hb. pose proof (pending_le_capacity _ Hwf) as Hle.
  assert (length (pending (sched w)) = capacity (sched w)) as Hlen.
  { rewrite (isFull_pending _ Hwf) in Hfull.
    apply negb_true_iff, Nat.ltb_ge in Hfull. lia. }
  destruct (loop_dispatch E fuel w pre x post Hwf) as (w1 & Hrun1 & Hwf1 & Hp1 & Hq1 & Hr1 & _);
    [lia|exact Hf|].
  rewrite Hb in Hp1, Hr1. cbn in Hp1, Hr1.
  apply first_due_Some in Hf as (Hp & _ & _).
  assert (capacity (sched w1) = capacity (sched w)) as Hc1
    by (unfold capacity; now rewrite Hq1).
  assert (length (pending (sched w1)) = (capacity (sched w1) - 1)%nat
          /\ (0 < capacity (sched w1))%nat) as [Hl1 Hpos].
  { rewrite Hc1, <- Hlen, Hp1, Hp, !length_app. cbn. lia. }
  destruct (runLater_spec E fuel r1 w1 Hwf1) as (w2 & Hrun2 & Hwf2 & Hp2 & Hq2 & _).
  replace (length (pending (sched w1)) <? capacity (sched w1))%nat with true in Hrun2, Hp2
    by (symmetry; apply Nat.ltb_lt; lia).
  destruct (runLater_spec E fuel r2 w2 Hwf2) as (w3 & Hrun3 & _ & Hp3 & _).
  assert (capacity (sched w2) = capacity (sched w1)) as Hc2
    by (unfold capacity; now rewrite Hq2).
  replace (length (pending (sched w2)) <? capacity (sched w2))%nat with false in Hrun3, Hp3
    by (symmetry; apply Nat.ltb_ge; rewrite Hp2, length_app; cbn; lia).
  exists w3. cbn [run step].
  rewrite Hrun1. cbn [mbind result_bind]. rewrite Hrun2. cbn [mbind result_bind].
  rewrite Hrun3. cbn [mbind result_bind].
  split; [reflexivity|].
  rewrite Hp3, Hp2, Hp1, <- app_assoc.
  replace (reads w1) with (reads w + S (length pre))%nat by lia. reflexivity.
Qed.

Lemma dispatch_frees_one_slot_witness :
  exists w',
    run E_tick 3 [OpLoop; OpRunLater (req 5 1); OpRunLater (req 6 1)] w_full_due
      = Ok ([RetVoid; RetBool true; RetBool false], w') /\
    pending (sched w')
      = [] ++ [act 1 0 1000]
           ++ [Action_of E_tick (reads w_full_due + S (length [act 1 0 1000])) (req 5 1)].
Proof.
  apply (dispatch_frees_one_slot E_tick 3 w_full_due [act 1 0 1000] (act 2 0 0) []).
  - wf_concrete.
  - vm_compute. lia.
  - reflexivity.
  - vm_compute. reflexivity.
  - reflexivity.
Defined.

(** ** Limits of the due test *)

Lemma ulong_sub_bound a b : 0 <= ulong_sub a b < ULONG_MODULUS.
Proof. unfold ulong_sub, ulong. apply Z.mod_pos_bound. reflexivity. Qed.

Lemma first_due_max_delay E l : forall n,
  (forall a, In a l -> delay a = ULONG_MODULUS - 1) -> first_due E n l = None.
Proof.
  induction l as [|a l IH]; intros n Hl; cbn [first_due]; [reflexivity|].
  assert (is_due (clock_value E (useMicros a) n) a = false) as ->.
  { unfold is_due. rewrite (Hl a) by now left.
    pose proof (ulong_sub_bound (clock_value E (useMicros a) n) (created a)).
    apply Z.ltb_ge. lia. }
  rewrite IH; [reflexivity|]. intros b Hb. apply Hl. now right.
Qed.

Lemma spec_run_max_delay E cap m : forall v,
  (forall a, In a (v_pending v) -> delay a = ULONG_MODULUS - 1) ->
  v_pending (snd (spec_run E cap (replicate m OpLoop) v)) = v_pending v /\
  v_trace (snd (spec_run E cap (replicate m OpLoop) v)) = v_trace v.
Proof.
  induction m as [|m IH]; intros v Hv; cbn [replicate spec_run spec_step].
  - cbn. auto.
  - unfold spec_loop. rewrite (first_due_max_delay E _ _ Hv).
    set (v1 := mkView _ _ _).
    destruct (IH v1 Hv) as [Hp Ht].
    destruct (spec_run E cap (replicate m OpLoop) v1) as [rs v2]. cbn in *. auto.
Qed.

(** X10. An action whose delay is [2^32 - 1] (the largest [unsigned long],
    also what a delay of -1 converts to) is never due: as long as only
    such actions are pending, no number of polls calls anything or
    changes the pending list, so they hold their slots for good. *)
Theorem max_delay_never_called E fuel w m :
  wf (sched w) -> (capacity (sched w) < fuel)%nat ->
  (forall a, In a (pending (sched w)) -> delay a = 2 ^ 32 - 1) ->
  exists rs w',
    run E fuel (replicate m OpLoop) w = Ok (rs, w') /\
    trace w' = trace w /\ pending (sched w') = pending (sched w).
Proof.
  intros Hwf Hfuel Hmax.
  destruct (run_refines E fuel (replicate m OpLoop) w Hwf (fun _ => Hfuel))
    as (w' & Hrun & _ & _ & Hv).
  destruct (spec_run_max_delay E (capacity (sched w)) m (view w) Hmax) as [Hp Ht].
  rewrite <- Hv in Hp, Ht. cbn in Hp, Ht.
  eexists _, w'. conjs; eauto.
Qed.

Lemma max_delay_never_called_witness :
  exists rs w',
    run E_tick 2 (replicate 5 OpLoop)
        (mkWorld (mkActions [act 1 0 (2 ^ 32 - 1); Action_empty] 2 1 0 None) 1 [])
      = Ok (rs, w') /\
    trace w' = [] /\ pending (sched w') = [act 1 0 (2 ^ 32 - 1)].
Proof.
  apply (max_delay_never_called E_tick 2
           (mkWorld (mkActions [act 1 0 (2 ^ 32 - 1); Action_empty] 2 1 0 None) 1 []) 5).
  - wf_concrete.
  - vm_compute. lia.
  - intros a [<- | []]. reflexivity.
Defined.

(** X11. The due test sees the elapsed time modulo [2^32] only. When a
    full period of the clock and [e <= delay] further ticks have passed
    since registration, the action is reported not due although more than
    [delay] ticks have elapsed. *)
Theorem is_due_misses_full_period cb m t0 t1 d e :
  0 <= e <= d -> d < 2 ^ 32 ->
  is_due (ulong t1) (mkAction cb m (ulong t0) d) = (d <? (t1 - t0) mod 2 ^ 32) /\
  is_due (ulong (t0 + 2 ^ 32 + e)) (mkAction cb m (ulong t0) d) = false.
Proof.
  intros He Hd.
  assert (forall t, is_due (ulong t) (mkAction cb m (ulong t0) d)
                    = (d <? (t - t0) mod 2 ^ 32)) as Hgen.
  { intros t. unfold is_due, ulong_sub, ulong. cbn [delay created].
    now rewrite <- Zminus_mod. }
  split; [apply Hgen|].
  rewrite Hgen. replace (t0 + 2 ^ 32 + e - t0) with (e + 1 * 2 ^ 32) by lia.
  rewrite Z.mod_add by lia. rewrite Z.mod_small by lia. apply Z.ltb_ge. lia.
Qed.

Lemma is_due_misses_full_period_witness :
  is_due (ulong (2 ^ 32 + 107)) (mkAction Callback_empty false (ulong 100) 10)
    = (10 <? (2 ^ 32 + 107 - 100) mod 2 ^ 32) /\
  is_due (ulong (100 + 2 ^ 32 + 7)) (mkAction Callback_empty false (ulong 100) 10)
    = false.
Proof.
  apply (is_due_misses_full_period Callback_empty false 100 (2 ^ 32 + 107) 10 7); lia.
Defined.

(** ** [runLater(Action)] when an overflow callback object exists *)

(** X12. If [overflowCallback] points to a [Callback] object,
    [setOverflowCallback] replaces that object's content; a [runLater] on
    the full queue then reads the clock, calls the new callback once (the
    old one is not called), returns false and leaves the queue as it is,
    provided the callback makes no [runLater] call itself. *)
Theorem overflow_callback_called_once E fuel r w old cb :
  isFull (sched w) = true ->
  overflowCallback (sched w) = Some old ->
  call_body E cb = [] ->
  exists s',
    setOverflowCallback cb (sched w) = Ok s' /\
    queue s' = queue (sched w) /\ head s' = head (sched w) /\
    tail s' = tail (sched w) /\
    runLater E (S fuel) r (set_sched w s')
      = Ok (false, mkWorld s' (S (reads w)) (trace w ++ call_event cb)).
Proof.
  intros Hfull Hold Hb. unfold setOverflowCallback. rewrite Hold.
  eexists. split; [reflexivity|]. cbn [queue head tail]. conjs; auto.
  unfold runLater, runLater_request, Action_ctor, clock_read, runLater_action.
  cbn [sched set_sched reads trace overflowCallback].
  replace (isFull _) with true by (rewrite <- Hfull; reflexivity).
  cbn [negb Callback_call]. unfold call_body, call_event in *.
  destruct (Callback_target cb) as [t|].
  - rewrite Hb. reflexivity.
  - cbn. now rewrite app_nil_r.
Qed.

Lemma overflow_callback_called_once_witness :
  exists s',
    setOverflowCallback (Callback_function (Some 8%nat)) (sched w_handler) = Ok s' /\
    queue s' = queue (sched w_handler) /\ head s' = head (sched w_handler) /\
    tail s' = tail (sched w_handler) /\
    runLater E_tick (S 0) (req 2 0) (set_sched w_handler s')
      = Ok (false, mkWorld s' (S (reads w_handler))
                           (trace w_handler
                              ++ call_event (Callback_function (Some 8%nat)))).
Proof.
  apply (overflow_callback_called_once E_tick 0 (req 2 0) w_handler
           (Callback_function (Some 9%nat)) (Callback_function (Some 8%nat)));
    reflexivity.
Defined.

Lemma handler_reenters E cb t r rs :
  Callback_target cb = Some t -> body E t = r :: rs ->
  forall fuel w,
    isFull (sched w) = true -> overflowCallback (sched w) = Some cb ->
    Callback_call E fuel cb w = Err FuelExhausted.
Proof.
  intros Ht Hb. induction fuel as [|k IH]; intros w Hfull Hh; cbn [Callback_call];
    [reflexivity|].
  rewrite Ht, Hb. cbn [run_body].
  unfold runLater_request, Action_ctor, clock_read, runLater_action.
  cbn [sched log_call reads trace]. rewrite Hfull, Hh. cbn [negb].
  rewrite IH by assumption. reflexivity.
Qed.

(** X13. If [overflowCallback] points to a callback that itself calls
    [runLater] on the same scheduler, a [runLater] on a full queue never
    returns: the rejected call runs the callback, whose [runLater] is
    rejected and runs the callback again, and so on; no recursion depth
    is enough. *)
Theorem overflow_callback_reentry_diverges E w cb t r rs :
  isFull (sched w) = true ->
  overflowCallback (sched w) = Some cb ->
  Callback_target cb = Some t -> body E t = r :: rs ->
  forall fuel r0, runLater E fuel r0 w = Err FuelExhausted.
Proof.
  intros Hfull Hh Ht Hb fuel r0.
  unfold runLater, runLater_request, Action_ctor, clock_read, runLater_action.
  cbn [sched]. rewrite Hfull, Hh. cbn [negb].
  rewrite (handler_reenters E cb t r rs Ht Hb) by assumption. reflexivity.
Qed.

Lemma overflow_callback_reentry_diverges_witness :
  runLater E_reenter 1000 (req 2 0) w_handler = Err FuelExhausted.
Proof.
  apply (overflow_callback_reentry_diverges E_reenter w_handler
           (Callback_function (Some 9%nat)) (Function 9%nat) (req 3 0) []);
    reflexivity.
Defined.

(** ** The whole public interface *)

(** X14. Construction followed by any sequence of [runLater] and [loop]
    calls behaves as the bounded list of pending actions says: the
    results of the calls, the pending actions in queue order, the number
    of clock reads and the calls made are those of [spec_run] on the
    empty list with capacity [size]. *)
Theorem run_from_refines E fuel size ops :
  -1 <= size < INT_MAX ->
  (In OpLoop ops -> (Z.to_nat size < fuel)%nat) ->
  observe (run_from E fuel size ops)
    = Ok (spec_run E (Z.to_nat size) ops (mkView [] 0 [])).
Proof.
  intros Hsize Hfuel. unfold run_from.
  destruct (Actions_ctor_total size Hsize) as [s Hs].
  assert (World_init size = Ok (mkWorld s 0 [])) as Hinit
    by (unfold World_init; now rewrite Hs).
  rewrite Hinit. cbn [mbind result_bind].
  apply World_init_Ok in Hinit as (_ & Hwf & Hq & _ & _ & Hv).
  assert (capacity (sched (mkWorld s 0 [])) = Z.to_nat size) as Hcap
    by (unfold capacity; rewrite Hq; f_equal; lia).
  destruct (run_refines E fuel ops (mkWorld s 0 []) Hwf) as (w & Hrun & _ & _ & Hvw).
  { rewrite Hcap. exact Hfuel. }
  rewrite Hcap, Hv in Hrun, Hvw. rewrite Hrun. cbn [observe]. rewrite Hvw.
  now destruct (spec_run E (Z.to_nat size) ops (mkView [] 0 [])).
Qed.

Lemma run_from_refines_witness :
  observe (run_from E_blink 3 2 [OpRunLater (req 1 0); OpRunLater (req 2 9); OpLoop])
    = Ok (spec_run E_blink (Z.to_nat 2)
            [OpRunLater (req 1 0); OpRunLater (req 2 9); OpLoop] (mkView [] 0 [])).
Proof.
  apply (run_from_refines E_blink 3 2
           [OpRunLater (req 1 0); OpRunLater (req 2 9); OpLoop]).
  - unfold INT_MAX. lia.
  - intros _. vm_compute. lia.
Defined.

(** ** The Blink sketch *)

Lemma blink_calls_S n :
  blink_calls (S n) = blink_calls n ++ [Function (blink_call n)].
Proof. unfold blink_calls. now rewrite seq_S, map_app. Qed.

Lemma Blink_body_next n :
  Blink_body (Function (blink_call n)) = [req (blink_call (S n)) BLINK_DELAY].
Proof.
  unfold blink_call. rewrite Nat.even_succ, <- Nat.negb_even.
  now destruct (Nat.even n).
Qed.

Lemma Blink_spec_polls E cap m :
  body E = Blink_body -> (0 < cap)%nat ->
  forall v n t,
    v_trace v = blink_calls n ->
    v_pending v = [act (blink_call n) t BLINK_DELAY] ->
    exists n' t',
      (n <= n' <= n + m)%nat /\
      v_trace (snd (spec_run E cap (replicate m OpLoop) v)) = blink_calls n' /\
      v_pending (snd (spec_run E cap (replicate m OpLoop) v))
        = [act (blink_call n') t' BLINK_DELAY].
Proof.
  intros HE Hcap. induction m as [|m IH]; intros v n t Ht Hp;
    cbn [replicate spec_run spec_step].
  - exists n, t. cbn. conjs; auto; lia.
  - assert (exists n1 t1, (n <= n1 <= S n)%nat /\
              v_trace (spec_loop E cap v) = blink_calls n1 /\
              v_pending (spec_loop E cap v) = [act (blink_call n1) t1 BLINK_DELAY])
      as (n1 & t1 & Hn1 & Ht1 & Hp1).
    { unfold spec_loop. rewrite Hp. cbn [first_due].
      destruct (is_due _ _).
      - exists (S n), (clock_value E false (v_reads v + 1)).
        cbn [v_trace v_pending]. split; [lia|]. split.
        + rewrite Ht, blink_calls_S. reflexivity.
        + unfold call_body. cbn [act callback Callback_function Callback_target
                                 functionCallback length app].
          rewrite HE, Blink_body_next. cbn [enqueue_all length].
          replace (0 <? cap)%nat with true by (symmetry; apply Nat.ltb_lt; lia).
          reflexivity.
      - exists n, t. cbn [v_trace v_pending]. split; [lia|]. auto. }
    destruct (IH (spec_loop E cap v) n1 t1 Ht1 Hp1) as (n' & t' & Hn' & Ht' & Hp').
    destruct (spec_run E cap (replicate m OpLoop) (spec_loop E cap v)) as [rs v2].
    cbn in *. exists n', t'. conjs; auto; lia.
Qed.

(** X15. The Blink sketch, under any clock: after [setup()] and any
    number [m] of passes of [loop()], the calls made so far are
    [turnLedOn], [turnLedOff], [turnLedOn], ... in strict alternation
    (at least one, at most [m + 1]), and exactly one action is pending:
    the opposite of the last call, with delay 500. The queue of 10 never
    fills up. *)
Theorem Blink_alternates millis micros fuel m :
  (10 < fuel)%nat ->
  exists rs w n t,
    Blink_sketch (Blink_env millis micros) fuel m = Ok (rs, w) /\
    (1 <= n <= S m)%nat /\
    trace w = blink_calls n /\
    pending (sched w) = [act (blink_call n) t BLINK_DELAY].
Proof.
  intros Hfuel. set (E := Blink_env millis micros).
  unfold Blink_sketch, Blink_setup.
  destruct (Actions_ctor_total DEFAULT_QUEUE_SIZE) as [s Hs];
    [unfold DEFAULT_QUEUE_SIZE, INT_MAX; lia|].
  assert (World_init DEFAULT_QUEUE_SIZE = Ok (mkWorld s 0 [])) as Hinit
    by (unfold World_init; now rewrite Hs).
  rewrite Hinit. cbn [mbind result_bind].
  apply World_init_Ok in Hinit as (_ & Hwf & Hq & _ & _ & Hv).
  assert (capacity (sched (mkWorld s 0 [])) = 10%nat) as Hcap
    by (unfold capacity; rewrite Hq; reflexivity).
  destruct fuel as [|fuel]; [lia|].
  destruct (Callback_call_spec E fuel (Callback_function (Some turnLedOn))
              (mkWorld s 0 []) Hwf) as (w1 & Hcall & Hwf1 & Hp1 & Hq1 & Hr1 & Ht1).
  rewrite Hcall. cbn [mbind result_bind].
  apply (f_equal v_pending) in Hv. cbn [view v_pending] in Hv.
  rewrite Hcap, Hv in Hp1. cbn in Hp1, Ht1.
  assert (capacity (sched w1) = 10%nat) as Hcap1
    by (unfold capacity in *; now rewrite Hq1).
  destruct (run_refines E (S fuel) (replicate m OpLoop) w1 Hwf1)
    as (w & Hrun & _ & _ & Hvw); [intros _; lia|].
  rewrite Hcap1 in Hrun, Hvw.
  destruct (Blink_spec_polls E 10 m eq_refl ltac:(lia) (view w1) 1%nat
              (clock_value E false 0) Ht1 Hp1) as (n & t & Hn & Htn & Hpn).
  rewrite <- Hvw in Htn, Hpn. cbn in Htn, Hpn.
  eexists _, w, n, t. conjs; eauto; lia.
Qed.

Lemma Blink_alternates_witness :
  exists rs w n t,
    Blink_sketch (Blink_env (fun k => 300 * Z.of_nat k) (fun _ => 0)) 11 4 = Ok (rs, w) /\
    (1 <= n <= S 4)%nat /\
    trace w = blink_calls n /\
    pending (sched w) = [act (blink_call n) t BLINK_DELAY].
Proof.
  apply (Blink_alternates (fun k => 300 * Z.of_nat k) (fun _ => 0) 11 4). lia.
Defined.

(** The sketch with a clock that advances 300 ms per read: the LED is
    switched on by [setup()], off by the second pass of [loop()] (which
    reads 600 ms) and on again by the fourth. *)
Example Blink_four_passes :
  observe (Blink_sketch (Blink_env (fun k => 300 * Z.of_nat k) (fun _ => 0)) 11 4)
    = Ok ([RetVoid; RetVoid; RetVoid; RetVoid],
          mkView [act turnLedOff 1800 500] 7
                 [Function turnLedOn; Function turnLedOff; Function turnLedOn]).
Proof. vm_compute. reflexivity. Qed.

(** ** Bounded waiting *)

Lemma first_due_reaches E x post : forall pre n,
  is_due (clock_value E (useMicros x) (n + length pre)) x = true ->
  first_due E n (pre ++ x :: post) = Some (pre, x, post) \/
  exists pre1 y mid,
    pre = pre1 ++ y :: mid /\
    first_due E n (pre ++ x :: post) = Some (pre1, y, mid ++ x :: post).
Proof.
  induction pre as [|a pre IH]; intros n Hx; cbn [app first_due length] in *.
  - left. rewrite Nat.add_0_r in Hx. now rewrite Hx.
  - destruct (is_due (clock_value E (useMicros a) n) a).
    + right. exists [], a, pre. auto.
    + destruct (IH (S n)) as [-> | (pre1 & y & mid & -> & ->)].
      * now replace (S n + length pre)%nat with (n + S (length pre))%nat by lia.
      * now left.
      * right. exists (a :: pre1), y, mid. auto.
Qed.

Lemma spec_run_bounded_wait E cap x :
  (forall n, is_due (clock_value E (useMicros x) n) x = true) ->
  forall j pre post v,
    length pre = j -> v_pending v = pre ++ x :: post ->
    exists k calls rest,
      (length calls < k <= S j)%nat /\
      v_trace (snd (spec_run E cap (replicate k OpLoop) v))
        = v_trace v ++ calls ++ call_event (callback x) /\
      v_pending (snd (spec_run E cap (replicate k OpLoop) v)) = post ++ rest.
Proof.
  intros Hdue j. induction j as [j IH] using lt_wf_ind.
  intros pre post v Hj Hp.
  destruct (first_due_reaches E x post pre (v_reads v) (Hdue _))
    as [Hf | (pre1 & y & mid & Hpre & Hf)].
  - exists 1%nat, [].
    destruct (enqueue_all_app E cap (call_body E (callback x))
                (v_reads v + S (length pre)) (post ++ pre)) as [added Ha].
    exists (pre ++ added).
    cbn [replicate spec_run spec_step snd length app]. unfold spec_loop.
    rewrite Hp, Hf. cbn [v_trace v_pending]. split; [lia|]. split; [reflexivity|].
    now rewrite Ha, <- app_assoc.
  - destruct (enqueue_all_app E cap (call_body E (callback y))
                (v_reads v + S (length pre1)) ((mid ++ x :: post) ++ pre1))
      as [added Ha].
    set (v1 := spec_loop E cap v).
    assert (v_trace v1 = v_trace v ++ call_event (callback y) /\
            v_pending v1 = mid ++ x :: (post ++ pre1 ++ added)) as [Ht1 Hp1].
    { subst v1. unfold spec_loop. rewrite Hp, Hf. cbn [v_trace v_pending].
      split; [reflexivity|]. rewrite Ha, <- !app_assoc. reflexivity. }
    assert (length mid < j)%nat as Hlt.
    { rewrite <- Hj, Hpre, length_app. cbn. lia. }
    destruct (IH (length mid) Hlt mid (post ++ pre1 ++ added) v1 eq_refl Hp1)
      as (k & calls & rest & Hk & Ht & Hq).
    exists (S k), (call_event (callback y) ++ calls), (pre1 ++ added ++ rest).
    cbn [replicate spec_run spec_step]. fold v1.
    destruct (spec_run E cap (replicate k OpLoop) v1) as [rs v2]. cbn [snd] in *.
    pose proof (call_event_length (callback y)).
    rewrite length_app. split; [lia|]. split.
    + rewrite Ht, Ht1, <- !app_assoc. reflexivity.
    + rewrite Hq, <- !app_assoc. reflexivity.
Qed.

(** X16. A pending action that is due at every clock read is called
    after at most as many polls as there are actions before it in the
    queue, plus one: each poll either calls it or calls an action before
    it, and what callbacks schedule meanwhile is queued behind it. When
    it has been called, the actions that were behind it are at the front
    of the queue. *)
Theorem due_action_bounded_wait E fuel w pre x post :
  wf (sched w) -> (capacity (sched w) < fuel)%nat ->
  pending (sched w) = pre ++ x :: post ->
  (forall n, is_due (clock_value E (useMicros x) n) x = true) ->
  exists k rs w' calls rest,
    (length calls < k <= S (length pre))%nat /\
    run E fuel (replicate k OpLoop) w = Ok (rs, w') /\
    trace w' = trace w ++ calls ++ call_event (callback x) /\
    pending (sched w') = post ++ rest.
Proof.
  intros Hwf Hfuel Hp Hdue.
  destruct (spec_run_bounded_wait E (capacity (sched w)) x Hdue (length pre)
              pre post (view w) eq_refl Hp) as (k & calls & rest & Hk & Ht & Hq).
  destruct (run_refines E fuel (replicate k OpLoop) w Hwf (fun _ => Hfuel))
    as (w' & Hrun & _ & _ & Hv).
  rewrite <- Hv in Ht, Hq. cbn in Ht, Hq.
  eexists k, _, w', calls, rest. conjs; eauto; lia.
Qed.

Lemma due_action_bounded_wait_witness :
  exists k rs w' calls rest,
    (length calls < k <= S (length [act 1 0 0; act 2 0 0]))%nat /\
    run (E_clock [] 5) 4 (replicate k OpLoop) w_three_due = Ok (rs, w') /\
    trace w' = trace w_three_due ++ calls ++ call_event (callback (act 3 0 0)) /\
    pending (sched w') = [] ++ rest.
Proof.
  apply (due_action_bounded_wait (E_clock [] 5) 4 w_three_due
           [act 1 0 0; act 2 0 0] (act 3 0 0) []).
  - wf_concrete.
  - vm_compute. lia.
  - reflexivity.
  - intros n. unfold E_clock, clock_value. cbn [useMicros act millis_at].
    destruct n; reflexivity.
Defined.

(** ** What an idle poll does to the array *)

Lemma push_indices call a w b w' :
  isFull (sched w) = false -> runLater_action call a w = Ok (b, w') ->
  head (sched w') = nextSlot (sched w) (head (sched w)) /\
  tail (sched w') = tail (sched w).
Proof.
  intros Hfull. unfold runLater_action. rewrite Hfull. cbn [negb].
  destruct (array_set _ _ _) as [q|e]; cbn; [|discriminate].
  intros [= <- <-]. cbn. auto.
Qed.

Lemma pop_indices x s b a s' :
  QUEUE_IS_EMPTY s = false -> remove x s = Ok (b, a, s') ->
  tail s' = nextSlot s (tail s) /\ head s' = head s.
Proof.
  intros He. unfold remove. rewrite He. cbn [negb].
  destruct (array_get _ _) as [a0|e]; cbn; [|discriminate].
  intros [= <- <- <-]. cbn. auto.
Qed.

Lemma nextSlot_same_size s s' i :
  queueSize s' = queueSize s -> nextSlot s' i = nextSlot s i.
Proof. intros H. unfold nextSlot. now rewrite H. Qed.

Lemma iter_nextSlot_same_size s s' k i :
  queueSize s' = queueSize s ->
  Nat.iter k (nextSlot s') i = Nat.iter k (nextSlot s) i.
Proof.
  intros H. induction k as [|k IH]; [reflexivity|].
  change (nextSlot s' (Nat.iter k (nextSlot s') i)
          = nextSlot s (Nat.iter k (nextSlot s) i)).
  rewrite IH. now apply nextSlot_same_size.
Qed.

Lemma loop_from_idle_indices E fuel : forall todo done iters i action w,
  wf (sched w) ->
  pending (sched w) = todo ++ done ->
  i = Z.of_nat (length done) ->
  (length todo < iters)%nat ->
  first_due E (reads w) todo = None ->
  exists w', loop_from E fuel iters i action w = Ok w' /\
    head (sched w') = Nat.iter (length todo) (nextSlot (sched w)) (head (sched w)) /\
    tail (sched w') = Nat.iter (length todo) (nextSlot (sched w)) (tail (sched w)).
Proof.
  induction todo as [|a todo IH]; intros done iters i action w Hwf Hp Hi Hit Hnone.
  - destruct (loop_from_spec E fuel [] done iters i action w Hwf Hp Hi Hit) as [Hidle _].
    destruct (Hidle Hnone) as (w' & Hrun & _).
    destruct iters as [|n]; [cbn in Hit; lia|].
    cbn [loop_from] in *.
    destruct (i <? getSize (sched w)) eqn:Hlt.
    + apply Z.ltb_lt in Hlt. pose proof (pending_length _ Hwf) as Hlen.
      rewrite Hp in Hlen. cbn in Hlen. pose proof (getSize_nonneg _ Hwf). lia.
    + exists w. cbn. auto.
  - destruct iters as [|n]; [cbn in Hit; lia|]. cbn in Hit.
    assert (getSize (sched w) = i + 1 + Z.of_nat (length todo)) as Hg.
    { pose proof (pending_length _ Hwf) as Hlen. rewrite Hp in Hlen.
      rewrite length_app in Hlen. cbn in Hlen.
      pose proof (getSize_nonneg _ Hwf). lia. }
    assert (QUEUE_IS_EMPTY (sched w) = false) as Hne.
    { destruct (QUEUE_IS_EMPTY (sched w)) eqn:He; [|reflexivity].
      apply (empty_getSize _ Hwf) in He. lia. }
    destruct (remove_pop action (sched w) Hwf Hne)
      as (a0 & s1 & Hrem & Hwf1 & Hp1 & Hq1 & Hfull1).
    destruct (pop_indices _ _ _ _ _ Hne Hrem) as [Ht1 Hh1].
    rewrite Hp in Hp1. cbn in Hp1. injection Hp1 as <- Hp1.
    cbn [first_due] in Hnone.
    destruct (is_due (clock_value E (useMicros a) (reads w)) a) eqn:Hdue;
      [discriminate|].
    destruct (first_due E (S (reads w)) todo) as [[[? ?] ?]|] eqn:Hrest;
      [discriminate|].
    cbn [loop_from].
    replace (i <? getSize (sched w)) with true by (symmetry; apply Z.ltb_lt; lia).
    rewrite Hrem. cbn [mbind result_bind]. unfold clock_read.
    cbn [set_sched sched reads trace]. rewrite Hdue.
    set (w2 := mkWorld s1 (S (reads w)) (trace w)).
    destruct (runLater_action_push (Callback_call E fuel) a w2 Hwf1 Hfull1)
      as (w3 & Hrun3 & Hwf3 & Hp3 & Hq3 & Hr3 & _).
    destruct (push_indices (Callback_call E fuel) a w2 true w3 Hfull1 Hrun3)
      as [Hh3 Ht3].
    rewrite Hrun3. cbn [mbind result_bind].
    subst w2. cbn [sched reads] in *.
    destruct (IH (done ++ [a]) n (i + 1) a w3 Hwf3) as (w' & Hrun & Hh & Ht).
    { rewrite Hp3, <- Hp1, <- app_assoc. reflexivity. }
    { rewrite length_app. cbn. lia. }
    { lia. }
    { now rewrite Hr3. }
    exists w'. split; [exact Hrun|].
    assert (queueSize (sched w3) = queueSize (sched w)) as Hq by congruence.
    rewrite Hh, Ht, !(iter_nextSlot_same_size (sched w) (sched w3)) by exact Hq.
    cbn [length]. rewrite !Nat.iter_succ_r.
    rewrite Hh3, Ht3, Hh1, Ht1.
    rewrite !(nextSlot_same_size (sched w) s1) by exact Hq1.
    auto.
Qed.

(** X17. A poll that finds nothing due keeps the pending list but not
    the array: every pending action is removed and queued again, so with
    [n] actions pending [head] and [tail] both advance by [n] slots
    around the ring. *)
Theorem idle_poll_rotates_array E fuel w :
  wf (sched w) -> (capacity (sched w) < fuel)%nat ->
  first_due E (reads w) (pending (sched w)) = None ->
  exists w',
    loop E fuel w = Ok (tt, w') /\
    pending (sched w') = pending (sched w) /\
    head (sched w')
      = (head (sched w) + Z.of_nat (length (pending (sched w))))
          mod queueSize (sched w) /\
    tail (sched w')
      = (tail (sched w) + Z.of_nat (length (pending (sched w))))
          mod queueSize (sched w).
Proof.
  intros Hwf Hfuel Hnone. pose proof (pending_le_capacity _ Hwf) as Hle.
  destruct (loop_from_idle_indices E fuel (pending (sched w)) [] fuel 0 Action_empty w Hwf)
    as (w' & Hrun & Hh & Ht);
    [now rewrite app_nil_r | reflexivity | lia | exact Hnone |].
  destruct (loop_idle E fuel w Hwf) as (w1 & Hrun1 & _ & Hp & _);
    [lia | exact Hnone |].
  unfold loop in *. rewrite Hrun in *. cbn in Hrun1. injection Hrun1 as <-.
  exists w'. conjs; auto.
  - destruct Hwf as (_ & _ & [[Hhr Htr]|(Hq0 & Hh0 & Ht0)]).
    + rewrite Hh. now apply nextSlot_iter.
    + assert (pending (sched w) = []) as Hp0.
      { unfold pending, getSize, QUEUE_IS_EMPTY. rewrite Hh0, Ht0. reflexivity. }
      rewrite Hh, Hp0, Hq0. cbn. now rewrite Z.mod_0_r, Z.add_0_r.
  - destruct Hwf as (_ & _ & [[Hhr Htr]|(Hq0 & Hh0 & Ht0)]).
    + rewrite Ht. now apply nextSlot_iter.
    + assert (pending (sched w) = []) as Hp0.
      { unfold pending, getSize, QUEUE_IS_EMPTY. rewrite Hh0, Ht0. reflexivity. }
      rewrite Ht, Hp0, Hq0. cbn. now rewrite Z.mod_0_r, Z.add_0_r.
Qed.

Lemma idle_poll_rotates_array_witness :
  exists w',
    loop E_tick 4 w_waiting = Ok (tt, w') /\
    pending (sched w') = pending (sched w_waiting) /\
    head (sched w')
      = (head (sched w_waiting) + Z.of_nat (length (pending (sched w_waiting))))
          mod queueSize (sched w_waiting) /\
    tail (sched w')
      = (tail (sched w_waiting) + Z.of_nat (length (pending (sched w_waiting))))
          mod queueSize (sched w_waiting).
Proof.
  apply (idle_poll_rotates_array E_tick 4 w_waiting).
  - wf_concrete.
  - vm_compute. lia.
  - vm_compute. reflexivity.
Defined.
